(** * wechatferry agent: send throttling and store reads

    A shallow embedding of [packages/agent/src/agent.ts]: the class
    [WechatferryAgent], the [Proxy] its constructor returns, the registry
    of per-recipient throttles and the read operations on the two local
    stores.  Time is in milliseconds, as [Date.now()] gives it.

    What is outside the sources is a parameter (the transport, the random
    source, the local stores, the byte layouts of the two blobs) or is
    modelled from the specification and marked so (the limiter of the
    package p-throttle, the decoders of ./utils). *)

From Stdlib Require Import ZArith Lia Ascii String List Bool.
From Stdlib.Strings Require Import Byte.
From stdpp Require Import base gmap strings list.

Local Open Scope string_scope.
Local Open Scope Z_scope.

(** ** The fixed-window limiter *)

Module Limiter.

(** Modelled from the spec: the package [p-throttle] (imported at line 8 of
    agent.ts, not part of the sources) is the Fixed-Window Limiter of the
    data model: capacity, windowDuration, windowStart and usedInWindow.
    The pending queue is not stored: a deferred call is resumed by a timer,
    so it is represented by the start time that [admission] hands out for
    it. *)
Record limiter := Build {
  capacity : Z;
  windowDuration : Z;
  windowStart : Z;
  usedInWindow : Z
}.

(** [pThrottle({limit, interval})]: a limiter that has admitted nothing. *)
Definition pThrottle (limit interval : Z) : limiter :=
  {| capacity := limit; windowDuration := interval;
     windowStart := 0; usedInWindow := 0 |}.

(** Modelled from the spec: the contract [admit(call)] of section 4.1, for a
    call that arrives at [now].  The
    result is the instant at which the call is started and the limiter
    afterwards.
    - the current window has elapsed: the call opens a new window;
    - the window has room: the call starts in it (at once, or at the opening
      of the window when earlier arrivals already pushed it into the future);
    - the window is full: the call is queued for the next window, which
      begins one windowDuration after the current one. *)
Definition admission (now : Z) (l : limiter) : Z * limiter :=
  if windowDuration l <=? now - windowStart l then
    (now, {| capacity := capacity l; windowDuration := windowDuration l;
             windowStart := now; usedInWindow := 1 |})
  else if usedInWindow l <? capacity l then
    (Z.max now (windowStart l),
     {| capacity := capacity l; windowDuration := windowDuration l;
        windowStart := windowStart l; usedInWindow := usedInWindow l + 1 |})
  else
    (windowStart l + windowDuration l,
     {| capacity := capacity l; windowDuration := windowDuration l;
        windowStart := windowStart l + windowDuration l; usedInWindow := 1 |}).

End Limiter.

Import Limiter.

(** ** Values, errors and the functions the interceptor builds *)

(** The JavaScript values that reach the agent as arguments.  An opaque
    object (a FileBox, a rich-text description) carries the string that
    [ToString] gives for it. *)
#[warnings="-register-all"]
Inductive jsval :=
| JUndefined
| JString (s : string)
| JArray (l : list jsval)
| JObject (repr : string).

(** [ToString], as a computed property key [o[v]] applies it. *)
Fixpoint ToString (v : jsval) : string :=
  match v with
  | JUndefined => "undefined"
  | JString s => s
  | JArray l =>
      String.concat ","
        (map (fun x => match x with JUndefined => "" | _ => ToString x end) l)
  | JObject repr => repr
  end.

Inductive error :=
| TransportError (msg : string)
| TypeError.

(** How a call ends.  The plain method hands this to its caller directly,
    the intercepted one through the promise it returns. *)
Inductive outcome :=
| Returned (v : jsval)
| Raised (e : error).

(** The two kinds of limiter of an agent. *)
Inductive gate :=
| Global
| Recipient (id : string).

(** The functions that the [get] handler of the proxy builds. *)
Inductive callee :=
| Method (prop : string) (args : list jsval)
    (* async () => Reflect.get(target, prop, receiver).apply(target, args) *)
| Thunk (f : callee)
    (* async () => f() *)
| Throttled (by_ : gate) (f : callee)
    (* what the throttle of that limiter returns for f *)
| NotCallable (repr : string).
    (* a value that is not a function *)

(** What [recipientThrottles[recipient]] evaluates to when it is truthy. *)
Inductive wrapper :=
| OwnThrottle (id : string)
    (* the throttle stored under that key by [getThrottleForRecipient] *)
| Inherited (name : string).
    (* a member that the object literal inherits from Object.prototype *)

(** What is observed of a call, in order. *)
Inductive event :=
| Submitted (g : gate) (at_ : Z)
| Passed (g : gate) (at_ : Z)
| Executed (prop : string) (args : list jsval) (at_ : Z).

Record call_result := CallResult {
  result : outcome;
  started : option Z;   (* when the underlying operation began, if it did *)
  trace : list event
}.

(** The gates of a trace, in the order in which the call was submitted. *)
Fixpoint gate_order (tr : list event) : list gate :=
  match tr with
  | [] => []
  | Submitted g _ :: tr' => g :: gate_order tr'
  | _ :: tr' => gate_order tr'
  end.

(** ** The agent *)

(** The fields of [WechatferryAgent] that the interceptor reads and writes.
    [randomInts] counts the calls made so far to [randomInt] of node:crypto;
    it is the state of the random source, not a field of the class. *)
Record agent := Agent {
  safe : bool;
  throttleGlobal : limiter;
  recipientThrottles : gmap string limiter;
  randomInts : nat
}.

Record WechatferryAgentUserOptions := UserOptions {
  opt_safe : option bool
}.

(** The members of Object.prototype, which [recipientThrottles = {}]
    inherits: a read [recipientThrottles[k]] finds them when the object has
    no property [k] of its own. *)
Definition Object_prototype : list string :=
  [ "constructor"; "__defineGetter__"; "__defineSetter__"; "hasOwnProperty";
    "__lookupGetter__"; "__lookupSetter__"; "isPrototypeOf";
    "propertyIsEnumerable"; "toString"; "valueOf"; "__proto__";
    "toLocaleString" ].

Definition inherited (k : string) : bool :=
  existsb (String.eqb k) Object_prototype.

(** [this.recipientThrottles[recipient]]: [None] is [undefined]. *)
Definition get_member (m : gmap string limiter) (k : string) : option wrapper :=
  match m !! k with
  | Some _ => Some (OwnThrottle k)
  | None => if inherited k then Some (Inherited k) else None
  end.

(** [throttle(function_)] for what the registry read gave.  A throttle
    returns the throttled function.  Of the inherited members, [Object]
    returns its argument, [Object.prototype.toString] returns a string, and
    the others raise a TypeError: [__proto__] is an object and not a
    function, the rest need a receiver and are called without one. *)
Definition apply_wrapper (w : wrapper) (f : callee) : error + callee :=
  match w with
  | OwnThrottle id => inr (Throttled (Recipient id) f)
  | Inherited name =>
      if String.eqb name "constructor" then inr f
      else if String.eqb name "toString" then
        inr (NotCallable "[object Undefined]")
      else inl TypeError
  end.

(** [String.prototype.startsWith] *)
Definition startsWith (s searchString : string) : bool :=
  String.prefix searchString s.

Definition arg (args : list jsval) (i : nat) : jsval := nth i args JUndefined.

(** The methods of the region API, lines 152 to 225: each one calls one
    primitive of the transport, with these arguments. *)
Definition api : list (string * (list jsval -> string * list jsval)) :=
  [ ("inviteChatRoomMembers",
      fun a => ("inviteRoomMembers", [arg a 0; JArray [arg a 1]]));
    ("addChatRoomMembers",
      fun a => ("addRoomMembers", [arg a 0; JArray [arg a 1]]));
    ("removeChatRoomMembers",
      fun a => ("delRoomMembers", [arg a 0; JArray [arg a 1]]));
    ("sendText",
      fun a => ("sendTxt",
                [arg a 1; arg a 0;
                 match arg a 2 with JUndefined => JArray [] | v => v end]));
    ("sendImage", fun a => ("sendImg", [arg a 1; arg a 0]));
    ("sendFile", fun a => ("sendFile", [arg a 1; arg a 0]));
    ("sendRichText", fun a => ("sendRichText", [arg a 1; arg a 0]));
    ("forwardMsg", fun a => ("forwardMsg", [arg a 0; arg a 1])) ].

Fixpoint assoc {A} (k : string) (l : list (string * A)) : option A :=
  match l with
  | [] => None
  | (k', v) :: l' => if String.eqb k k' then Some v else assoc k l'
  end.

(** The other function-valued members that the class declares. *)
Definition other_members : list string :=
  [ "start"; "stop"; "catchErrors"; "checkLogin"; "startTimer"; "stopTimer";
    "getThrottleForRecipient"; "throttleGlobal"; "dbSqlQuery";
    "getChatRoomDetailList"; "getChatRoomInfo"; "getChatRoomMembers";
    "getContactInfo"; "getContactList"; "getTagList"; "getTalkerId";
    "getHistoryMessageList" ].

(** [typeof target[prop] === 'function'], for the members that the class
    itself declares.  The members it inherits from EventEmitter and from
    Object are functions too; none of their names starts with send. *)
Definition is_function (prop : string) : bool :=
  existsb (String.eqb prop) (map fst api ++ other_members).

Section Agent.

(** The collaborators of the agent, which are outside the sources. *)

(** [this.wcf]: what the transport primitive [name] does with [args] when
    it is called at instant [t]. *)
Variable wcf : string -> list jsval -> Z -> outcome.

(** What a function-valued member outside the region API does. *)
Variable other : string -> list jsval -> Z -> outcome.

(** The outcomes of [randomInt] of node:crypto, before scaling: the k-th
    call yields [entropy k]. *)
Variable entropy : nat -> Z.

(** The [safe] of [resolvedWechatferryAgentOptions(options)], from
    ./utils. *)
Variable resolvedWechatferryAgentOptions : WechatferryAgentUserOptions -> bool.

(** [randomInt(min, max)]: an integer n with min <= n < max. *)
Definition randomInt (min max : Z) (k : nat) : Z :=
  min + entropy k mod (max - min).

(** The state that the constructor leaves: lines 17 to 30. *)
Definition new (options : WechatferryAgentUserOptions) : agent :=
  {| safe := resolvedWechatferryAgentOptions options;
     throttleGlobal := pThrottle 40 60000;
     recipientThrottles := ∅;
     randomInts := 0 |}.

(** Lines 119 to 129. *)
Definition getThrottleForRecipient (recipient : string) (this : agent)
  : wrapper * agent :=
  match get_member (recipientThrottles this) recipient with
  | Some throttle => (throttle, this)
  | None =>
      let throttle := pThrottle 1 (randomInt 1000 3000 (randomInts this)) in
      (OwnThrottle recipient,
       {| safe := safe this;
          throttleGlobal := throttleGlobal this;
          recipientThrottles := <[recipient := throttle]> (recipientThrottles this);
          randomInts := S (randomInts this) |})
  end.

(** A call of the function that a throttle returned: the limiter behind
    [g] decides when it starts.  [None] when [g] names no limiter. *)
Definition admission_at (g : gate) (now : Z) (this : agent) : option (Z * agent) :=
  match g with
  | Global =>
      let '(start, l) := admission now (throttleGlobal this) in
      Some (start,
            {| safe := safe this; throttleGlobal := l;
               recipientThrottles := recipientThrottles this;
               randomInts := randomInts this |})
  | Recipient id =>
      match recipientThrottles this !! id with
      | Some l0 =>
          let '(start, l) := admission now l0 in
          Some (start,
                {| safe := safe this; throttleGlobal := throttleGlobal this;
                   recipientThrottles := <[id := l]> (recipientThrottles this);
                   randomInts := randomInts this |})
      | None => None
      end
  end.

(** A function-valued member of the target applied to [args] at [now]. *)
Definition apply_method (prop : string) (args : list jsval) (now : Z) : outcome :=
  match assoc prop api with
  | Some body => let '(primitive, args') := body args in wcf primitive args' now
  | None => other prop args now
  end.

(** A call of [f] at [now]. *)
Fixpoint invoke (f : callee) (now : Z) (this : agent) : call_result * agent :=
  match f with
  | Method prop args =>
      ({| result := apply_method prop args now;
          started := Some now;
          trace := [Executed prop args now] |}, this)
  | Thunk g => invoke g now this
  | Throttled g f' =>
      match admission_at g now this with
      | Some (start, this') =>
          let '(r, this'') := invoke f' start this' in
          ({| result := result r; started := started r;
              trace := Submitted g now :: Passed g start :: trace r |},
           this'')
      | None =>
          ({| result := Raised TypeError;
              started := None; trace := [Submitted g now] |}, this)
      end
  | NotCallable repr =>
      ({| result := Raised TypeError;
          started := None; trace := [] |}, this)
  end.

(** What the [get] handler returns for [prop]: lines 33 to 47. *)
Inductive property :=
| Interceptor (prop : string)   (* the arrow function of lines 35 to 44 *)
| Plain (prop : string).        (* Reflect.get(target, prop, receiver) *)

Definition proxy_get (target : agent) (prop : string) : property :=
  if safe target && is_function prop && startsWith prop "send"
  then Interceptor prop
  else Plain prop.

(** The arrow function of lines 35 to 44, called with [args] at [now]. *)
Definition intercepted (prop : string) (args : list jsval) (now : Z)
    (target : agent) : call_result * agent :=
  let id := ToString (arg args 0) in
  let '(throttleForRecipient, target1) := getThrottleForRecipient id target in
  match apply_wrapper throttleForRecipient (Method prop args) with
  | inr throttledForRecipient =>
      let throttled := Throttled Global (Thunk throttledForRecipient) in
      invoke throttled now target1
  | inl e =>
      ({| result := Raised e; started := None; trace := [] |}, target1)
  end.

(** A call of what [Reflect.get] gave for [prop]: the member runs at once;
    the call of a value that is not a function raises a TypeError. *)
Definition immediate (prop : string) (args : list jsval) (now : Z)
    (target : agent) : call_result * agent :=
  if is_function prop then invoke (Method prop args) now target
  else ({| result := Raised TypeError; started := None; trace := [] |}, target).

(** [agent[prop](...args)] through the proxy, at [now]. *)
Definition call (prop : string) (args : list jsval) (now : Z) (target : agent)
  : call_result * agent :=
  match proxy_get target prop with
  | Interceptor p => intercepted p args now target
  | Plain p => immediate p args now target
  end.

(** What a client does with the agent: it calls a member at some instant,
    or it assigns the public field [safe] (the proxy has no [set] handler,
    so the assignment reaches the target). *)
Inductive action :=
| Call (now : Z) (prop : string) (args : list jsval)
| SetSafe (b : bool).

Definition step (this : agent) (a : action) : list call_result * agent :=
  match a with
  | Call now prop args =>
      let '(r, this') := call prop args now this in ([r], this')
  | SetSafe b =>
      ([], {| safe := b; throttleGlobal := throttleGlobal this;
              recipientThrottles := recipientThrottles this;
              randomInts := randomInts this |})
  end.

(** A history of actions, in the order in which they happen.  A call is
    treated as a unit here: its passage through the global limiter and,
    when that limiter lets it through, its passage through the throttle of
    its recipient.  A limiter starts calls in the order in which they
    arrive, and timers due at the same instant fire in the order in which
    they were set, so for a history in the order of time the limiters see
    the same sequence of calls as under the event loop. *)
Fixpoint run (h : list action) (this : agent) : list call_result * agent :=
  match h with
  | [] => ([], this)
  | a :: h' =>
      let '(rs, this') := step this a in
      let '(rs', this'') := run h' this' in
      (app rs rs', this'')
  end.

End Agent.

(** ** The payload decoders *)

Module Decoders.

Definition bytes := list Byte.byte.

(** A decoded member sub-record of a room-membership blob. *)
Record member := Member { wxid : string }.

(** What [decodeRoomData] returns. *)
Record RoomData := { members : option (list member) }.

(** A decoded field of a sender-extra blob. *)
Record property := Property { type : Z; value : string }.

(** What [decodeBytesExtra] returns: [None] is the absent record. *)
Definition BytesExtra := option (list property).

Section Layout.

(** The two byte layouts are pinned outside the sources.  [read_member]
    reads one member sub-record from the front of a buffer and gives the
    member and the bytes after it; [read_property] does the same for one
    tagged field.  [None]: the bytes at hand are truncated or malformed. *)
Variable read_member : bytes -> option (member * bytes).
Variable read_property : bytes -> option (property * bytes).

(** The tag of the field that carries the identifier of the sender. *)
Variable sender_type : Z.

(** Modelled from the spec: the room-membership decoder of ./utils, section
    4.5: it decodes as many well-formed member sub-records as are present
    and stops at the end of the buffer or at the first point that is
    truncated or malformed, with the members decoded so far. *)
Fixpoint read_members (fuel : nat) (buf : bytes) : list member :=
  match fuel, buf with
  | O, _ => []
  | _, [] => []
  | S fuel', _ =>
      match read_member buf with
      | Some (m, rest) => m :: read_members fuel' rest
      | None => []
      end
  end.

(** The fuel is the length of the buffer: a reader that consumes at least
    one byte for each sub-record never runs out of it. *)
Definition decodeRoomData (buf : bytes) : RoomData :=
  {| members := Some (read_members (length buf) buf) |}.

(** Modelled from the spec: the sender-extra decoder of ./utils, section
    4.4: the tagged fields of the buffer, or the absent record when the
    buffer is truncated or malformed at some point. *)
Fixpoint read_properties (fuel : nat) (buf : bytes) : option (list property) :=
  match buf, fuel with
  | [], _ => Some []
  | _, O => None
  | _, S fuel' =>
      match read_property buf with
      | Some (p, rest) =>
          match read_properties fuel' rest with
          | Some ps => Some (p :: ps)
          | None => None
          end
      | None => None
      end
  end.

Definition decodeBytesExtra (buf : bytes) : BytesExtra :=
  read_properties (length buf) buf.

(** Modelled from the spec: [getWxidFromBytesExtra] of ./utils: the value of
    the field that carries the sender, [None] when the record is absent or
    has no such field. *)
Definition getWxidFromBytesExtra (extra : BytesExtra) : option string :=
  match extra with
  | Some ps =>
      match List.find (fun p => Z.eqb (type p) sender_type) ps with
      | Some p => Some (value p)
      | None => None
      end
  | None => None
  end.

(** The buffer holds the sub-records of [ms], one after the other, and then
    [rest]. *)
Inductive holds_members : bytes -> list member -> bytes -> Prop :=
| holds_members_nil buf : holds_members buf [] buf
| holds_members_cons buf m buf' ms rest :
    buf <> [] -> read_member buf = Some (m, buf') ->
    holds_members buf' ms rest ->
    holds_members buf (m :: ms) rest.

(** The buffer holds the fields [ps], one after the other, and then [rest]. *)
Inductive holds_properties : bytes -> list property -> bytes -> Prop :=
| holds_properties_nil buf : holds_properties buf [] buf
| holds_properties_cons buf p buf' ps rest :
    buf <> [] -> read_property buf = Some (p, buf') ->
    holds_properties buf' ps rest ->
    holds_properties buf (p :: ps) rest.

(** No sub-record can be read at the front of [buf]: it is the end of the
    buffer, or a truncated or malformed point. *)
Definition no_member_at (buf : bytes) : Prop :=
  buf = [] \/ read_member buf = None.

(** The buffer is truncated or malformed at some point. *)
Definition truncated (buf : bytes) : Prop :=
  exists ps rest,
    holds_properties buf ps rest /\ rest <> [] /\ read_property rest = None.

(** The buffer is well formed and none of its fields carries the sender. *)
Definition lacks_sender (buf : bytes) : Prop :=
  exists ps,
    holds_properties buf ps [] /\ Forall (fun p => type p <> sender_type) ps.

End Layout.

(** A layout for the examples: one sub-record or field is a tag byte, a
    length byte and that many bytes of text. *)
Definition read_tlv (buf : bytes) : option (Z * string * bytes) :=
  match buf with
  | tag :: len :: body =>
      let n := Byte.to_nat len in
      if (n <=? length body)%nat
      then Some (Z.of_nat (Byte.to_nat tag),
                 string_of_list_byte (firstn n body), skipn n body)
      else None
  | _ => None
  end.

Definition tlv_member (buf : bytes) : option (member * bytes) :=
  match read_tlv buf with
  | Some (1, s, rest) => Some ({| wxid := s |}, rest)
  | _ => None
  end.

Definition tlv_property (buf : bytes) : option (property * bytes) :=
  match read_tlv buf with
  | Some (t, s, rest) => Some ({| type := t; value := s |}, rest)
  | None => None
  end.

End Decoders.

(** ** Reads of the local stores *)

(** [String.prototype.split] for a separator that is not empty. *)
Fixpoint split_from (sep s : string) (skip : nat) (cur : string) : list string :=
  match s with
  | EmptyString => [cur]
  | String c s' =>
      match skip with
      | S skip' => split_from sep s' skip' cur
      | O =>
          if String.prefix sep s
          then cur :: split_from sep s' (String.length sep - 1) ""
          else split_from sep s' 0 (cur ++ String c "")
      end
  end.

Definition split (s sep : string) : list string := split_from sep s 0 "".

Definition truthy (s : string) : bool :=
  match s with EmptyString => false | _ => true end.

Inductive cell :=
| Null
| Text (s : string)
| Integer (z : Z)
| Blob (b : Decoders.bytes).

(** The rows of the queries.  The columns that the agent reads have the
    types that its code uses them at; [columns] holds the others. *)
Record ChatRoomDetailRow := {
  detail_columns : gmap string cell;
  RoomData : Decoders.bytes;
  Reserved2 : cell
}.

Record ChatRoomInfoRow := {
  info_columns : gmap string cell;
  UserNameList : string;
  DisplayNameList : string
}.

Record ContactRow := {
  contact_columns : gmap string cell;
  UserName : string;
  LabelIDList : option string
}.

Record TalkerIdRow := { TalkerId : string }.

Record MSG := {
  msg_columns : gmap string cell;
  BytesExtra : Decoders.bytes
}.

Inductive store := MicroMsg | MSG0.

(** The queries that the agent builds, by the rows they give. *)
Inductive sql : Type -> Type :=
| SelectChatRoomDetailList : sql ChatRoomDetailRow
| SelectChatRoomInfo (userName : string) : sql ChatRoomInfoRow
| SelectChatRoomMembers (memberIdList : list string) : sql ContactRow
| SelectContactInfo (userName : string) : sql ContactRow
| SelectContactList : sql ContactRow
| SelectTalkerId (userName : string) : sql TalkerIdRow
| SelectMSG (talkerId : option string) (filter : option string) : sql MSG.

(** What the read operations return. *)
Record ChatRoomDetail := {
  detail_row : ChatRoomDetailRow;
  ownerUserName : cell;
  detail_memberIdList : list string
}.

Record ChatRoomInfo := {
  info_row : ChatRoomInfoRow;
  memberIdList : list string;
  info_DisplayNameList : list string;
  displayNameMap : gmap string (option string)
}.

Record ChatRoomMember := {
  member_row : ContactRow;
  DisplayName : jsval
}.

Record ContactInfo := {
  contact_row : ContactRow;
  tags : list string
}.

Record HistoryMessage := {
  msg : MSG;
  talkerWxid : string
}.

(** [o[k] = v] on an object literal: an assignment to [__proto__] of a
    value that is not an object leaves the object as it is. *)
Definition set_property (k : string) (v : option string)
    (o : gmap string (option string)) : gmap string (option string) :=
  if String.eqb k "__proto__" then o else <[k := v]> o.

(** Lines 320 to 322. *)
Fixpoint fill_displayNameMap (ids : list string) (index : nat)
    (names : list string) (o : gmap string (option string))
  : gmap string (option string) :=
  match ids with
  | [] => o
  | memberId :: ids' =>
      fill_displayNameMap ids' (S index) names
        (set_property memberId (names !! index) o)
  end.

(** [displayNameMap[k] || ''], line 364. *)
Definition display_name (o : gmap string (option string)) (k : string) : jsval :=
  match o !! k with
  | Some (Some s) => JString s
  | Some None => JString ""
  | None => if inherited k then JObject k else JString ""
  end.

Section Reads.

(** [this.wcf.execDbQuery] behind [dbSqlQuery], lines 142 to 144. *)
Variable dbSqlQuery : forall T, store -> sql T -> list T.

(** [this.wcf.getSelfWxid()] *)
Variable getSelfWxid : string.

Variable read_member : Decoders.bytes -> option (Decoders.member * Decoders.bytes).
Variable read_property : Decoders.bytes -> option (Decoders.property * Decoders.bytes).
Variable sender_type : Z.

(** Lines 233 to 275. *)
Definition getChatRoomDetailList : list ChatRoomDetail :=
  let list := dbSqlQuery _ MicroMsg SelectChatRoomDetailList in
  map (fun v =>
         let data := Decoders.decodeRoomData read_member (RoomData v) in
         let memberIdList :=
           match Decoders.members data with
           | Some ms => map Decoders.wxid ms
           | None => []
           end in
         {| detail_row := v; ownerUserName := Reserved2 v;
            detail_memberIdList := memberIdList |})
      list.

(** Lines 281 to 332.  [None] is [undefined]. *)
Definition getChatRoomInfo (userName : string) : option ChatRoomInfo :=
  match dbSqlQuery _ MicroMsg (SelectChatRoomInfo userName) with
  | [] => None
  | data :: _ =>
      let memberIdList := split (UserNameList data) "^G" in
      let DisplayNameList := split (DisplayNameList data) "^G" in
      Some {| info_row := data;
              memberIdList := memberIdList;
              info_DisplayNameList := DisplayNameList;
              displayNameMap :=
                fill_displayNameMap memberIdList 0 DisplayNameList ∅ |}
  end.

(** Lines 340 to 367. *)
Definition getChatRoomMembers (userName : string) : option (list ChatRoomMember) :=
  match getChatRoomInfo userName with
  | None => None
  | Some roomInfo =>
      let results :=
        dbSqlQuery _ MicroMsg (SelectChatRoomMembers (memberIdList roomInfo)) in
      Some (map (fun result =>
                   {| member_row := result;
                      DisplayName :=
                        display_name (displayNameMap roomInfo) (UserName result) |})
                results)
  end.

(** Lines 373 to 391. *)
Definition getContactInfo (userName : string) : option ContactInfo :=
  match dbSqlQuery _ MicroMsg (SelectContactInfo userName) with
  | [] => None
  | data :: _ =>
      Some {| contact_row := data;
              tags := match LabelIDList data with
                      | Some s => List.filter truthy (split s ",")
                      | None => []
                      end |}
  end.

(** Lines 445 to 462. *)
Definition getTalkerId (userName : string) : option string :=
  match dbSqlQuery _ MSG0 (SelectTalkerId userName) with
  | [] => None
  | data :: _ => Some (TalkerId data)
  end.

(** Lines 471 to 512. *)
Definition getHistoryMessageList (userName : string) (filter : option string)
  : list HistoryMessage :=
  let talkerId := getTalkerId userName in
  let data := dbSqlQuery _ MSG0 (SelectMSG talkerId filter) in
  map (fun m =>
         let extra := Decoders.decodeBytesExtra read_property (BytesExtra m) in
         let wxid :=
           match Decoders.getWxidFromBytesExtra sender_type extra with
           | Some s => if truthy s then s else getSelfWxid
           | None => getSelfWxid
           end in
         {| msg := m; talkerWxid := wxid |})
      data.

End Reads.

(** ** Collaborators and inputs for the examples *)

Module Example.

(** A transport on which every primitive succeeds. *)
Definition wcf (name : string) (args : list jsval) (t : Z) : outcome :=
  Returned (JString "0").

Definition other (name : string) (args : list jsval) (t : Z) : outcome :=
  Returned JUndefined.

(** A random source that always yields 1000: every throttle gets a window
    of 2000 ms. *)
Definition entropy (k : nat) : Z := 1000.

Definition resolved (options : WechatferryAgentUserOptions) : bool :=
  match opt_safe options with Some b => b | None => false end.

Definition safe_agent : agent := new resolved {| opt_safe := Some true |}.

(** An instant that [Date.now()] can give. *)
Definition t0 : Z := 1700000000000.

Definition sendText (id : string) (now : Z) : action :=
  Call now "sendText" [JString id; JString "hello"].

Definition run (h : list action) : list call_result * agent :=
  run wcf other entropy h safe_agent.

(** Forty recipients, wxid_00 to wxid_39. *)
Definition recipients : list string :=
  map (fun k => "wxid_" ++ String (ascii_of_nat (48 + k / 10))
                 (String (ascii_of_nat (48 + k mod 10)) ""))%string
      (seq 0 40).

(** Forty sends to one recipient at [t0], then one send to each of forty
    other recipients a little more than a minute later. *)
Definition burst : list action :=
  app (repeat (sendText "wxid_alice" t0) 40)
      (map (fun r => sendText r (t0 + 60001)) recipients).

(** A room-membership blob in the layout [Decoders.read_tlv]: the members
    w1 and w2, and then a sub-record that is cut short. *)
Definition two_members_then_cut : Decoders.bytes :=
  [ x01; x02; "w"; "1";
    x01; x02; "w"; "2";
    x01; x02; "w" ]%byte.

(** A sender-extra blob in that layout with one field, of tag 7. *)
Definition no_sender_field : Decoders.bytes :=
  [ x07; x01; "x" ]%byte.

Definition sender_type : Z := 1.

(** Stores with one room, whose blob is [two_members_then_cut], and three
    messages of one talker: the sender-extra blob of the first is empty,
    that of the second is cut short, that of the third has no sender. *)
Definition dbSqlQuery (T : Type) (db : store) (q : sql T) : list T :=
  match q in sql T return list T with
  | SelectChatRoomDetailList =>
      [ {| detail_columns := ∅; RoomData := two_members_then_cut;
           Reserved2 := Text "wxid_owner" |} ]
  | SelectTalkerId _ => [ {| TalkerId := "1" |} ]
  | SelectMSG _ _ =>
      [ {| msg_columns := ∅; BytesExtra := [] |};
        {| msg_columns := ∅; BytesExtra := [ x01; x09; "w" ]%byte |};
        {| msg_columns := ∅; BytesExtra := no_sender_field |} ]
  | _ => []
  end.

End Example.

(** The number of calls whose underlying operation began in [lo, hi). *)
Definition started_within (lo hi : Z) (rs : list call_result) : nat :=
  length (List.filter
            (fun r => match started r with
                      | Some s => (lo <=? s) && (s <? hi)
                      | None => false
                      end) rs).

(** ** What the histories are measured by *)

(** The instants at which the limiter [g] let calls through, in the order
    of the trace. *)
Fixpoint passed_by (g : gate) (tr : list event) : list Z :=
  match tr with
  | [] => []
  | Passed g' s :: tr' =>
      match g, g' with
      | Global, Global => s :: passed_by g tr'
      | Recipient r, Recipient r' =>
          if String.eqb r' r then s :: passed_by g tr' else passed_by g tr'
      | _, _ => passed_by g tr'
      end
  | _ :: tr' => passed_by g tr'
  end.

Definition passes (g : gate) (rs : list call_result) : list Z :=
  flat_map (fun r => passed_by g (trace r)) rs.

(** Each instant of the list is at least [w] after the one before it;
    [last] is the instant before the first of the list, if there is one. *)
Fixpoint spaced (w : Z) (last : option Z) (l : list Z) : Prop :=
  match l with
  | [] => True
  | s :: l' =>
      match last with Some p => p + w <= s | None => True end /\
      spaced w (Some s) l'
  end.

(** The number of instants of the list in [lo, hi). *)
Definition count_within (lo hi : Z) (l : list Z) : nat :=
  length (List.filter (fun s => (lo <=? s) && (s <? hi)) l).

(** The clock of a call reads at least one minute: [Date.now()] counts the
    milliseconds since 1970. *)
Definition clock_ok (a : action) : Prop :=
  match a with Call now _ _ => 60000 <= now | SetSafe _ => True end.

(** The throttle of a recipient as [getThrottleForRecipient] makes it and
    as its calls leave it: capacity 1, a window in [1000, 3000) ms, and
    either no call so far or the window of the last call, at [last]. *)
Definition paced (l : limiter) (last : option Z) : Prop :=
  capacity l = 1 /\ 1000 <= windowDuration l < 3000 /\
  match last with
  | None => windowStart l = 0 /\ usedInWindow l = 0
  | Some s => windowStart l = s /\ usedInWindow l = 1
  end.

Definition paced_at (this : agent) (r : string) (last : option Z) : Prop :=
  match recipientThrottles this !! r with
  | Some l => paced l last
  | None => last = None
  end.

(** The callee never calls the throttle of recipient [r]. *)
Fixpoint not_about (r : string) (f : callee) : Prop :=
  match f with
  | Method _ _ => True
  | Thunk f' => not_about r f'
  | Throttled Global f' => not_about r f'
  | Throttled (Recipient id) f' => id <> r /\ not_about r f'
  | NotCallable _ => True
  end.

(** The callee never calls the global limiter. *)
Fixpoint not_global (f : callee) : Prop :=
  match f with
  | Method _ _ => True
  | Thunk f' => not_global f'
  | Throttled Global _ => False
  | Throttled (Recipient _) f' => not_global f'
  | NotCallable _ => True
  end.

(** The limiter [l] has started the calls [starts]: none of them is past
    the end of the current window, and [usedInWindow] covers those that
    fall into the current window. *)
Definition windowed (l : limiter) (starts : list Z) : Prop :=
  0 < windowDuration l /\ 1 <= capacity l /\
  0 <= usedInWindow l <= capacity l /\
  Forall (fun s => s < windowStart l + windowDuration l) starts /\
  Z.of_nat (count_within (windowStart l)
              (windowStart l + windowDuration l) starts) <= usedInWindow l.

(** [b] is the beginning of the current window of [l] or of a window that
    has elapsed, and at most [capacity l] of [starts] fall into the window
    that begins at [b]. *)
Definition window_kept (b : Z) (l : limiter) (starts : list Z) : Prop :=
  (b = windowStart l \/ b + windowDuration l <= windowStart l) /\
  Z.of_nat (count_within b (b + windowDuration l) starts) <= capacity l.

(** Every throttle of [this] is still a throttle of [this'], with the
    capacity and the window duration it had. *)
Definition keeps_throttles (this this' : agent) : Prop :=
  forall id l,
    recipientThrottles this !! id = Some l ->
    exists l',
      recipientThrottles this' !! id = Some l' /\
      capacity l' = capacity l /\ windowDuration l' = windowDuration l.

Definition is_call (a : action) : bool :=
  match a with Call _ _ _ => true | SetSafe _ => false end.

(** No key of the registry is the name of a member of Object.prototype. *)
Definition no_inherited_key (this : agent) : Prop :=
  forall k, inherited k = true -> recipientThrottles this !! k = None.



(** ** The list of contacts *)

Section ContactList.

Variable dbSqlQuery : forall T, store -> sql T -> list T.

(** Lines 396 to 426. *)
Definition getContactList : list ContactInfo :=
  let result := dbSqlQuery _ MicroMsg SelectContactList in
  map (fun v =>
         {| contact_row := v;
            tags := match LabelIDList v with
                    | Some s => List.filter truthy (split s ",")
                    | None => []
                    end |})
      result.

End ContactList.

(** No character of the string is a comma. *)
Fixpoint no_comma (s : string) : Prop :=
  match s with
  | EmptyString => True
  | String c s' => c <> ","%char /\ no_comma s'
  end.

(** ** The life cycle of the agent, lines 53 to 117 *)

Module Lifecycle.

(** What [stop] is called with. *)
Inductive reason :=
| NoReason                 (* stop() *)
| Thrown (e : jsval)       (* a value that was thrown *)
| Signal (name : string)   (* the name of a signal *)
| ExitCode (code : Z).     (* an exit code *)

(** [if (error)] *)
Definition reason_truthy (r : reason) : bool :=
  match r with
  | NoReason => false
  | Thrown JUndefined => false
  | Thrown (JString s) => truthy s
  | Thrown _ => true
  | Signal name => truthy name
  | ExitCode code => negb (code =? 0)
  end.

(** The events that the agent emits here.  The listeners are the
    client's: an emission is recorded, in order. *)
Inductive emission :=
| Login (userInfo : jsval)
| Logout
| ErrorEvent (r : reason).

(** [timer] is the field of the class.  [intervals] are the handles of the
    intervals that [setInterval] made and no [clearInterval] cleared;
    [created] counts the intervals made so far and is the next handle.
    [calls] counts the calls of the transport made so far.  [handlers] and
    [forwarders] count the listeners that [catchErrors] put on the process
    and that [start] put on the transport. *)
Record core := Core {
  timer : option nat;
  intervals : list nat;
  created : nat;
  calls : nat;
  emitted : list emission;
  handlers : nat;
  forwarders : nat
}.

(** [timer] is null, every interval made so far is live, and the process
    has three handlers for each listener on the transport. *)
Definition polling (st : core) : Prop :=
  timer st = None /\ intervals st = seq 0 (created st) /\
  handlers st = (3 * forwarders st)%nat.

Definition init : core :=
  {| timer := None; intervals := []; created := 0; calls := 0;
     emitted := []; handlers := 0; forwarders := 0 |}.

Definition called (st : core) : core :=
  {| timer := timer st; intervals := intervals st; created := created st;
     calls := S (calls st); emitted := emitted st;
     handlers := handlers st; forwarders := forwarders st |}.

Definition emit (e : emission) (st : core) : core :=
  {| timer := timer st; intervals := intervals st; created := created st;
     calls := calls st; emitted := app (emitted st) [e];
     handlers := handlers st; forwarders := forwarders st |}.

Section Transport.

(** The transport: what its k-th call gives when that call is
    [isLogin()] ([None]: it throws), [getUserInfo()], [start()] or
    [stop()] ([Some e]: it throws e). *)
Variable isLogin : nat -> option bool.
Variable getUserInfo : nat -> outcome.
Variable wcf_start : nat -> option error.
Variable wcf_stop : nat -> option error.

(** Lines 54 to 60. *)
Definition isLoggedIn (st : core) : bool * core :=
  (match isLogin (calls st) with Some b => b | None => false end, called st).

(** Lines 114 to 117: [clearInterval] of a handle clears that interval,
    [clearInterval(null)] clears nothing. *)
Definition stopTimer (st : core) : core :=
  {| timer := None;
     intervals :=
       match timer st with
       | Some handle => List.filter (fun i => negb (Nat.eqb i handle)) (intervals st)
       | None => intervals st
       end;
     created := created st; calls := calls st; emitted := emitted st;
     handlers := handlers st; forwarders := forwarders st |}.

(** Lines 94 to 100.  [Some e]: the call threw e. *)
Definition checkLogin (st : core) : option error * core :=
  let '(logged, st1) := isLoggedIn st in
  if logged then
    match getUserInfo (calls st1) with
    | Returned userInfo =>
        (None, stopTimer (emit (Login userInfo) (called st1)))
    | Raised e => (Some e, called st1)
    end
  else (None, st1).

(** Lines 102 to 112: the handle that [setInterval] returns is not kept. *)
Definition startTimer (st : core) : option error * core :=
  let '(e, st1) := checkLogin (stopTimer st) in
  match e with
  | Some _ => (e, st1)
  | None =>
      (None,
       {| timer := timer st1;
          intervals := app (intervals st1) [created st1];
          created := S (created st1); calls := calls st1;
          emitted := emitted st1;
          handlers := handlers st1; forwarders := forwarders st1 |})
  end.

(** The function that [startTimer] gives to [setInterval], lines 106 to
    111. *)
Definition poll (st : core) : option error * core :=
  let '(logged, st1) := isLoggedIn st in
  if logged then (None, stopTimer st1) else checkLogin st1.

(** Lines 88 to 92. *)
Definition catchErrors (st : core) : core :=
  {| timer := timer st; intervals := intervals st; created := created st;
     calls := calls st; emitted := emitted st;
     handlers := 3 + handlers st; forwarders := forwarders st |}.

(** Lines 65 to 70. *)
Definition start (st : core) : option error * core :=
  match wcf_start (calls st) with
  | Some e => (Some e, called st)
  | None =>
      let '(e, st1) := startTimer (called st) in
      match e with
      | Some _ => (e, st1)
      | None =>
          let st2 := catchErrors st1 in
          (None,
           {| timer := timer st2; intervals := intervals st2;
              created := created st2; calls := calls st2;
              emitted := emitted st2; handlers := handlers st2;
              forwarders := S (forwarders st2) |})
      end
  end.

(** Lines 76 to 86; [err] is the parameter [error]. *)
Definition stop (err : reason) (st : core) : option error * core :=
  let '(logged, st1) := isLoggedIn (stopTimer st) in
  let st2 := if logged then emit Logout st1 else st1 in
  match wcf_stop (calls st2) with
  | Some e => (Some e, called st2)
  | None =>
      (None,
       if reason_truthy err then emit (ErrorEvent err) (called st2)
       else called st2)
  end.

(** What happens to the agent: a call of [start], a call of [stop], or
    the firing of one of the live intervals. *)
Inductive action :=
| Start
| Stop (err : reason)
| Fire.

Definition step (st : core) (a : action) : core :=
  match a with
  | Start => snd (start st)
  | Stop err => snd (stop err st)
  | Fire => match intervals st with [] => st | _ => snd (poll st) end
  end.

Definition run (acts : list action) (st : core) : core :=
  fold_left step acts st.

End Transport.

End Lifecycle.

(** ** More inputs for the examples *)

Module Example2.

(** Stores with one room of two members, of which the first has the
    display name Ann and the second the display name Bob; the query for
    its members finds the contact wxid_b and a contact wxid_z; one contact
    with the labels 1 and 2; one message without sender-extra bytes. *)
Definition dbSqlQuery (T : Type) (db : store) (q : sql T) : list T :=
  match q in sql T return list T with
  | SelectChatRoomInfo _ =>
      [ {| info_columns := ∅; UserNameList := "wxid_a^Gwxid_b";
           DisplayNameList := "Ann^GBob" |} ]
  | SelectChatRoomMembers _ =>
      [ {| contact_columns := ∅; UserName := "wxid_b"; LabelIDList := None |};
        {| contact_columns := ∅; UserName := "wxid_z"; LabelIDList := None |} ]
  | SelectContactInfo _ =>
      [ {| contact_columns := ∅; UserName := "wxid_a";
           LabelIDList := Some "1,2" |} ]
  | SelectContactList =>
      [ {| contact_columns := ∅; UserName := "wxid_a";
           LabelIDList := Some "1,2" |} ]
  | SelectMSG _ _ => [ {| msg_columns := ∅; BytesExtra := [] |} ]
  | _ => []
  end.

(** A transport on which nobody is logged in and every call succeeds. *)
Definition isLogin (k : nat) : option bool := Some false.
Definition getUserInfo (k : nat) : outcome := Returned (JString "wxid_self").
Definition wcf_start (k : nat) : option error := None.
Definition wcf_stop (k : nat) : option error := None.


End Example2.

(** * Properties *)

(** ** The limiter *)

Lemma admission_cases now l :
  let '(start, l') := admission now l in
  capacity l' = capacity l /\ windowDuration l' = windowDuration l /\
  ((windowDuration l <= now - windowStart l /\
    start = now /\ windowStart l' = now /\ usedInWindow l' = 1) \/
   (now - windowStart l < windowDuration l /\ usedInWindow l < capacity l /\
    start = Z.max now (windowStart l) /\ windowStart l' = windowStart l /\
    usedInWindow l' = usedInWindow l + 1) \/
   (now - windowStart l < windowDuration l /\ capacity l <= usedInWindow l /\
    start = windowStart l + windowDuration l /\
    windowStart l' = windowStart l + windowDuration l /\
    usedInWindow l' = 1)).
Proof.
  unfold admission.
  destruct (Z.leb_spec (windowDuration l) (now - windowStart l));
    [ | destruct (Z.ltb_spec (usedInWindow l) (capacity l)) ];
    simpl; intuition lia.
Qed.

Lemma admission_capacity now l : capacity (snd (admission now l)) = capacity l.
Proof. pose proof (admission_cases now l) as H. destruct (admission now l). apply H. Qed.

Lemma admission_windowDuration now l :
  windowDuration (snd (admission now l)) = windowDuration l.
Proof. pose proof (admission_cases now l) as H. destruct (admission now l). apply H. Qed.

(** A call is never started before it arrives. *)
Lemma admission_not_early now l : now <= fst (admission now l).
Proof.
  pose proof (admission_cases now l) as H. destruct (admission now l) as [s l'].
  simpl. intuition lia.
Qed.

(** ** The registry of recipient throttles *)

Lemma keeps_throttles_refl this : keeps_throttles this this.
Proof. intros id l H. exists l. auto. Qed.

Lemma keeps_throttles_trans a b c :
  keeps_throttles a b -> keeps_throttles b c -> keeps_throttles a c.
Proof.
  intros Hab Hbc id l H.
  destruct (Hab id l H) as (l1 & H1 & Hc1 & Hw1).
  destruct (Hbc id l1 H1) as (l2 & H2 & Hc2 & Hw2).
  exists l2. repeat split; congruence.
Qed.

Lemma inherited_not_own_key k m :
  get_member m k = None -> m !! k = None /\ inherited k = false.
Proof.
  unfold get_member. destruct (m !! k); [discriminate|].
  destruct (inherited k); [discriminate|]. auto.
Qed.

Section AgentFacts.

Variable wcf other : string -> list jsval -> Z -> outcome.
Variable entropy : nat -> Z.
Variable resolved : WechatferryAgentUserOptions -> bool.

Lemma randomInt_range k : 1000 <= randomInt entropy 1000 3000 k < 3000.
Proof.
  unfold randomInt. change (3000 - 1000) with 2000.
  pose proof (Z.mod_pos_bound (entropy k) 2000). lia.
Qed.

(** The first lookup of an identifier that names no member of
    Object.prototype creates its throttle: capacity 1 and a window that
    [randomInt] draws in [1000, 3000). *)
Lemma getThrottleForRecipient_first recipient this :
  inherited recipient = false ->
  recipientThrottles this !! recipient = None ->
  exists interval this',
    getThrottleForRecipient entropy recipient this = (OwnThrottle recipient, this') /\
    interval = randomInt entropy 1000 3000 (randomInts this) /\
    1000 <= interval < 3000 /\
    recipientThrottles this' =
      <[recipient := pThrottle 1 interval]> (recipientThrottles this) /\
    safe this' = safe this /\ throttleGlobal this' = throttleGlobal this /\
    randomInts this' = S (randomInts this).
Proof.
  intros Hin Hnone. unfold getThrottleForRecipient, get_member.
  rewrite Hnone, Hin.
  eexists _, _. split; [reflexivity|]. simpl.
  split; [reflexivity|]. split; [apply randomInt_range|]. auto.
Qed.

(** A later lookup returns the throttle that is stored, and draws nothing. *)
Lemma getThrottleForRecipient_again recipient this l :
  recipientThrottles this !! recipient = Some l ->
  getThrottleForRecipient entropy recipient this = (OwnThrottle recipient, this).
Proof.
  intros Hsome. unfold getThrottleForRecipient, get_member.
  rewrite Hsome. reflexivity.
Qed.

Lemma getThrottleForRecipient_keeps recipient this :
  keeps_throttles this (snd (getThrottleForRecipient entropy recipient this)).
Proof.
  unfold getThrottleForRecipient.
  destruct (get_member (recipientThrottles this) recipient) eqn:Hm; simpl.
  - apply keeps_throttles_refl.
  - apply inherited_not_own_key in Hm as [Hnone _].
    intros id l H. exists l. simpl.
    rewrite lookup_insert_ne; [auto | congruence].
Qed.

Lemma getThrottleForRecipient_safe recipient this :
  safe (snd (getThrottleForRecipient entropy recipient this)) = safe this.
Proof.
  unfold getThrottleForRecipient.
  destruct (get_member (recipientThrottles this) recipient); reflexivity.
Qed.

Lemma admission_at_keeps g now this start this' :
  admission_at g now this = Some (start, this') ->
  keeps_throttles this this' /\ safe this' = safe this /\
  randomInts this' = randomInts this.
Proof.
  unfold admission_at. destruct g as [|id0].
  - destruct (admission now (throttleGlobal this)) as [s l].
    intros [= <- <-]. simpl. split; [|auto].
    intros id l1 H. exists l1. auto.
  - destruct (recipientThrottles this !! id0) as [l0|] eqn:H0; [|discriminate].
    pose proof (admission_capacity now l0) as Hc.
    pose proof (admission_windowDuration now l0) as Hw.
    destruct (admission now l0) as [s l]. simpl in Hc, Hw.
    intros [= <- <-]. simpl. split; [|auto].
    intros id l1 H. simpl.
    destruct (decide (id0 = id)) as [->|Hne].
    + rewrite lookup_insert_eq. exists l. split; [reflexivity|].
      rewrite H0 in H. injection H as <-. auto.
    + rewrite lookup_insert_ne by assumption. exists l1. auto.
Qed.

Lemma invoke_keeps f : forall now this,
  keeps_throttles this (snd (invoke wcf other f now this)) /\
  safe (snd (invoke wcf other f now this)) = safe this.
Proof.
  induction f as [prop args | f IH | g f IH | repr]; intros now this; simpl.
  - split; [apply keeps_throttles_refl | reflexivity].
  - apply IH.
  - destruct (admission_at g now this) as [[start this']|] eqn:Ha; simpl.
    + apply admission_at_keeps in Ha as (Hk & Hs & _).
      specialize (IH start this').
      destruct (invoke wcf other f start this') as [r this'']. simpl in *.
      destruct IH as [IHk IHs].
      split; [eapply keeps_throttles_trans; eauto | congruence].
    + split; [apply keeps_throttles_refl | reflexivity].
  - split; [apply keeps_throttles_refl | reflexivity].
Qed.

Lemma intercepted_keeps prop args now this :
  keeps_throttles this (snd (intercepted wcf other entropy prop args now this)) /\
  safe (snd (intercepted wcf other entropy prop args now this)) = safe this.
Proof.
  unfold intercepted.
  pose proof (getThrottleForRecipient_keeps (ToString (arg args 0)) this) as Hk.
  pose proof (getThrottleForRecipient_safe (ToString (arg args 0)) this) as Hs.
  destruct (getThrottleForRecipient entropy (ToString (arg args 0)) this)
    as [w this1]. simpl in Hk, Hs.
  destruct (apply_wrapper w (Method prop args)) as [e|f].
  - simpl. auto.
  - pose proof (invoke_keeps (Throttled Global (Thunk f)) now this1) as [Hk' Hs'].
    split; [eapply keeps_throttles_trans; eauto | congruence].
Qed.

Lemma call_keeps prop args now this :
  keeps_throttles this (snd (call wcf other entropy prop args now this)) /\
  safe (snd (call wcf other entropy prop args now this)) = safe this.
Proof.
  unfold call. destruct (proxy_get this prop) as [p|p].
  - apply intercepted_keeps.
  - unfold immediate. destruct (is_function p).
    + apply invoke_keeps.
    + split; [apply keeps_throttles_refl | reflexivity].
Qed.

(** No action of a client removes a throttle from the registry or changes
    its capacity or its window duration. *)
Lemma step_keeps this a :
  keeps_throttles this (snd (step wcf other entropy this a)).
Proof.
  destruct a as [now prop args | b]; simpl.
  - pose proof (call_keeps prop args now this) as [Hk _].
    destruct (call wcf other entropy prop args now this). exact Hk.
  - intros id l H. exists l. auto.
Qed.

Lemma run_keeps h : forall this,
  keeps_throttles this (snd (run wcf other entropy h this)).
Proof.
  induction h as [|a h IH]; intros this; simpl.
  - apply keeps_throttles_refl.
  - pose proof (step_keeps this a) as Hs.
    destruct (step wcf other entropy this a) as [rs this'].
    specialize (IH this').
    destruct (run wcf other entropy h this') as [rs' this''].
    simpl in *. eapply keeps_throttles_trans; eauto.
Qed.

Lemma getThrottleForRecipient_no_inherited_key recipient this :
  no_inherited_key this ->
  no_inherited_key (snd (getThrottleForRecipient entropy recipient this)).
Proof.
  intros Hinv. unfold getThrottleForRecipient.
  destruct (get_member (recipientThrottles this) recipient) eqn:Hm; simpl.
  - exact Hinv.
  - apply inherited_not_own_key in Hm as [_ Hin].
    intros k Hk. simpl. rewrite lookup_insert_ne by congruence. auto.
Qed.

Lemma invoke_no_inherited_key f : forall now this,
  no_inherited_key this ->
  no_inherited_key (snd (invoke wcf other f now this)).
Proof.
  induction f as [prop args | f IH | g f IH | repr]; intros now this Hinv;
    cbn [invoke]; try exact Hinv.
  - apply IH, Hinv.
  - destruct (admission_at g now this) as [[start this']|] eqn:Ha;
      [|exact Hinv].
    specialize (IH start this').
    destruct (invoke wcf other f start this') as [res this'']. cbn [snd] in *.
    apply IH. unfold admission_at in Ha. destruct g as [|id].
    + destruct (admission now (throttleGlobal this)).
      injection Ha as <- <-. exact Hinv.
    + destruct (recipientThrottles this !! id) eqn:Hid; [|discriminate].
      destruct (admission now l). injection Ha as <- <-.
      intros k Hk. simpl. rewrite lookup_insert_ne; [auto|].
      intros ->. rewrite (Hinv _ Hk) in Hid. discriminate.
Qed.

(** The registry never gets a key that names a member of Object.prototype:
    the lookup finds the member and stores nothing. *)
Lemma run_no_inherited_key h : forall this,
  no_inherited_key this ->
  no_inherited_key (snd (run wcf other entropy h this)).
Proof.
  induction h as [|a h IH]; intros this Hinv; cbn [run]; [exact Hinv|].
  assert (Hstep : no_inherited_key (snd (step wcf other entropy this a))).
  { destruct a as [now prop args | b]; cbn [step]; [|exact Hinv].
    unfold call. destruct (proxy_get this prop) as [p|p].
    - unfold intercepted.
      pose proof (getThrottleForRecipient_no_inherited_key
                    (ToString (arg args 0)) this Hinv) as H1.
      destruct (getThrottleForRecipient entropy (ToString (arg args 0)) this)
        as [w this1]. cbn [snd] in H1.
      destruct (apply_wrapper w (Method p args)) as [e|f]; [exact H1|].
      pose proof (invoke_no_inherited_key (Throttled Global (Thunk f))
                    now this1 H1) as H2.
      destruct (invoke wcf other (Throttled Global (Thunk f)) now this1).
      exact H2.
    - unfold immediate. destruct (is_function p); [|exact Hinv].
      exact Hinv. }
  destruct (step wcf other entropy this a) as [rs1 this1]. cbn [snd] in Hstep.
  specialize (IH this1 Hstep).
  destruct (run wcf other entropy h this1) as [rs' this']. exact IH.
Qed.

End AgentFacts.

(** ** The interceptor *)

Section Interceptor.

Variable wcf other : string -> list jsval -> Z -> outcome.
Variable entropy : nat -> Z.
Variable resolved : WechatferryAgentUserOptions -> bool.

Lemma proxy_get_send target prop :
  safe target = true -> is_function prop = true ->
  startsWith prop "send" = true ->
  proxy_get target prop = Interceptor prop.
Proof. intros Hs Hf Hp. unfold proxy_get. rewrite Hs, Hf, Hp. reflexivity. Qed.

Lemma proxy_get_other target prop :
  startsWith prop "send" = false -> proxy_get target prop = Plain prop.
Proof.
  intros Hp. unfold proxy_get. rewrite Hp.
  destruct (safe target), (is_function prop); reflexivity.
Qed.


Lemma call_plain target prop args now :
  proxy_get target prop = Plain prop ->
  call wcf other entropy prop args now target =
    immediate wcf other prop args now target.
Proof. intros Hp. unfold call. rewrite Hp. reflexivity. Qed.

Lemma immediate_no_gate prop args now target :
  snd (immediate wcf other prop args now target) = target /\
  gate_order (trace (fst (immediate wcf other prop args now target))) = [].
Proof. unfold immediate. destruct (is_function prop); simpl; auto. Qed.

(** The throttle of a recipient is there once the lookup has run. *)
Lemma getThrottleForRecipient_own recipient this :
  inherited recipient = false ->
  exists this' l,
    getThrottleForRecipient entropy recipient this = (OwnThrottle recipient, this') /\
    recipientThrottles this' !! recipient = Some l /\
    safe this' = safe this /\ throttleGlobal this' = throttleGlobal this.
Proof.
  intros Hin.
  destruct (recipientThrottles this !! recipient) as [l|] eqn:Hl.
  - exists this, l.
    split; [eapply getThrottleForRecipient_again; eauto | auto].
  - destruct (getThrottleForRecipient_first entropy recipient this Hin Hl)
      as (interval & this' & Heq & _ & Hr & Hm & Hs & Hg & _).
    exists this', (pThrottle 1 interval).
    split; [exact Heq|]. rewrite Hm, lookup_insert_eq. auto.
Qed.

(** What the interceptor does with a send to a recipient that has a
    throttle of its own: the global limiter first, then the throttle of the
    recipient, then the member of the target. *)
Lemma intercepted_own prop args now target :
  let id := ToString (arg args 0) in
  inherited id = false ->
  exists target1 l,
    getThrottleForRecipient entropy id target = (OwnThrottle id, target1) /\
    recipientThrottles target1 !! id = Some l /\
    let g := fst (admission now (throttleGlobal target)) in
    let s := fst (admission g l) in
    intercepted wcf other entropy prop args now target =
      ({| result := apply_method wcf other prop args s;
          started := Some s;
          trace := [Submitted Global now; Passed Global g;
                    Submitted (Recipient id) g; Passed (Recipient id) s;
                    Executed prop args s] |},
       {| safe := safe target;
          throttleGlobal := snd (admission now (throttleGlobal target));
          recipientThrottles :=
            <[id := snd (admission g l)]> (recipientThrottles target1);
          randomInts := randomInts target1 |}).
Proof.
  intros id Hin.
  destruct (getThrottleForRecipient_own id target Hin)
    as (target1 & l & Heq & Hl & Hs & Hg).
  exists target1, l. split; [exact Heq|]. split; [exact Hl|].
  intros g s. unfold intercepted. fold id. rewrite Heq.
  cbn [apply_wrapper invoke admission_at].
  subst g s. rewrite Hg, Hs.
  destruct (admission now (throttleGlobal target)) as [g gl].
  cbn [fst snd recipientThrottles]. rewrite Hl.
  destruct (admission g l) as [s l']. reflexivity.
Qed.

End Interceptor.

(** ** The decoders *)

Section DecoderFacts.

Import Decoders.

Variable read_member : bytes -> option (member * bytes).
Variable read_property : bytes -> option (property * bytes).
Variable sender_type : Z.

(** The members in a buffer, up to its first point where no sub-record can
    be read, are determined by the buffer. *)
Lemma holds_members_unique buf ms rest :
  holds_members read_member buf ms rest -> no_member_at read_member rest ->
  forall ms' rest',
    holds_members read_member buf ms' rest' -> no_member_at read_member rest' ->
    ms' = ms.
Proof.
  induction 1 as [buf | buf m buf' ms rest Hne Hread Hrest IH];
    intros Hstop ms' rest' H' Hstop'.
  - destruct H' as [|buf m buf' ms' rest' Hne Hread _]; [reflexivity|].
    destruct Hstop; congruence.
  - destruct H' as [buf | buf m' buf'' ms' rest' Hne' Hread' Hrest'].
    + destruct Hstop'; congruence.
    + rewrite Hread in Hread'. injection Hread' as <- <-.
      f_equal. eapply IH; eauto.
Qed.

(** With enough fuel, the loop of the decoder reads the members up to the
    first point where no sub-record can be read. *)
Lemma read_members_holds :
  (forall buf m rest,
     read_member buf = Some (m, rest) -> (length rest < length buf)%nat) ->
  forall fuel buf, (length buf <= fuel)%nat ->
    exists rest,
      holds_members read_member buf (read_members read_member fuel buf) rest /\
      no_member_at read_member rest.
Proof.
  intros Hconsumes.
  induction fuel as [|fuel IH]; intros buf Hfuel.
  - destruct buf; [|simpl in Hfuel; lia].
    exists []. split; [constructor | left; reflexivity].
  - destruct buf as [|b buf].
    + exists []. split; [constructor | left; reflexivity].
    + cbn [read_members].
      destruct (read_member (b :: buf)) as [[m rest]|] eqn:Hread.
      * apply Hconsumes in Hread as Hlt.
        destruct (IH rest) as (rest' & Hholds & Hstop); [simpl in *; lia|].
        exists rest'. split; [|exact Hstop].
        econstructor; eauto; discriminate.
      * exists (b :: buf). split; [constructor | right; exact Hread].
Qed.

Lemma read_properties_truncated buf :
  truncated read_property buf ->
  forall fuel, read_properties read_property fuel buf = None.
Proof.
  intros (ps & rest & Hholds & Hne & Hread).
  induction Hholds as [buf | buf p buf' ps rest Hne' Hread' Hrest IH];
    intros fuel.
  - destruct buf; [congruence|]. destruct fuel; simpl; [reflexivity|].
    rewrite Hread. reflexivity.
  - destruct buf; [congruence|]. destruct fuel; simpl; [reflexivity|].
    rewrite Hread', (IH Hne Hread). reflexivity.
Qed.

Lemma read_properties_complete buf ps :
  holds_properties read_property buf ps [] ->
  forall fuel,
    read_properties read_property fuel buf = None \/
    read_properties read_property fuel buf = Some ps.
Proof.
  intros Hholds. remember [] as rest eqn:Hrest.
  induction Hholds as [buf | buf p buf' ps rest Hne Hread Hholds IH];
    intros fuel.
  - subst buf. right. destruct fuel; reflexivity.
  - destruct buf; [congruence|]. destruct fuel; simpl; [left; reflexivity|].
    rewrite Hread. destruct (IH Hrest fuel) as [-> | ->]; auto.
Qed.

Lemma find_sender_none ps :
  Forall (fun p => type p <> sender_type) ps ->
  List.find (fun p => Z.eqb (type p) sender_type) ps = None.
Proof.
  induction 1 as [|p ps Hp _ IH]; simpl; [reflexivity|].
  destruct (Z.eqb_spec (type p) sender_type); [contradiction | exact IH].
Qed.

(** The sender is absent when the buffer is empty, truncated or malformed,
    or holds no field with the tag of the sender. *)
Lemma sender_absent buf :
  buf = [] \/ truncated read_property buf \/
  lacks_sender read_property sender_type buf ->
  getWxidFromBytesExtra sender_type (decodeBytesExtra read_property buf) = None.
Proof.
  unfold decodeBytesExtra. intros [-> | [Htr | (ps & Hholds & Hall)]].
  - reflexivity.
  - rewrite (read_properties_truncated buf Htr). reflexivity.
  - destruct (read_properties_complete buf ps Hholds (length buf)) as [-> | ->].
    + reflexivity.
    + simpl. rewrite (find_sender_none ps Hall). reflexivity.
Qed.

End DecoderFacts.

Lemma lookup_map {A B} (f : A -> B) (l : list A) (i : nat) :
  map f l !! i = option_map f (l !! i).
Proof.
  revert i. induction l as [|a l IH]; intros [|i]; simpl; auto.
Qed.

Lemma tlv_member_consumes buf m rest :
  Decoders.tlv_member buf = Some (m, rest) -> (length rest < length buf)%nat.
Proof.
  unfold Decoders.tlv_member, Decoders.read_tlv.
  destruct buf as [|tag [|len body]]; try discriminate.
  destruct (Nat.leb_spec (Byte.to_nat len) (length body)); [|discriminate].
  destruct (Z.of_nat (Byte.to_nat tag)) as [|[p|p|]|]; try discriminate.
  intros [= <- <-]. rewrite length_skipn. simpl. lia.
Qed.

(** ** The spacing of the sends to one recipient *)

(** A throttle of capacity 1 starts each call at least one window after
    the call before it. *)
Lemma paced_admission l last g :
  paced l last -> 3000 <= g ->
  paced (snd (admission g l)) (Some (fst (admission g l))) /\
  windowDuration (snd (admission g l)) = windowDuration l /\
  match last with
  | Some p => p + windowDuration l <= fst (admission g l)
  | None => True
  end.
Proof.
  intros (Hc & Hw & Hlast) Hg.
  pose proof (admission_cases g l) as H.
  destruct (admission g l) as [s l']. cbn [fst snd].
  destruct H as (Hc' & Hw' & H).
  unfold paced. rewrite Hc', Hw'.
  destruct last as [p|]; destruct Hlast as [Hws Hu];
    intuition lia.
Qed.

Lemma passes_app g rs rs' :
  passes g (app rs rs') = app (passes g rs) (passes g rs').
Proof. unfold passes. apply flat_map_app. Qed.

Section Pacing.

Variable wcf other : string -> list jsval -> Z -> outcome.
Variable entropy : nat -> Z.
Variable r : string.

Lemma invoke_not_about f : forall now this,
  not_about r f ->
  recipientThrottles (snd (invoke wcf other f now this)) !! r =
    recipientThrottles this !! r /\
  passed_by (Recipient r) (trace (fst (invoke wcf other f now this))) = [].
Proof.
  induction f as [prop args | f IH | g f IH | repr]; intros now this Hf;
    cbn [invoke].
  - auto.
  - apply IH, Hf.
  - destruct g as [|id]; cbn [admission_at].
    + destruct (admission now (throttleGlobal this)) as [s l].
      specialize (IH s {| safe := safe this; throttleGlobal := l;
                          recipientThrottles := recipientThrottles this;
                          randomInts := randomInts this |} Hf).
      destruct (invoke wcf other f s _) as [res this'']. simpl in *. exact IH.
    + destruct Hf as [Hne Hf].
      destruct (recipientThrottles this !! id) as [l0|] eqn:Hl0; [|simpl; auto].
      destruct (admission now l0) as [s l].
      specialize (IH s {| safe := safe this;
                          throttleGlobal := throttleGlobal this;
                          recipientThrottles := <[id := l]> (recipientThrottles this);
                          randomInts := randomInts this |} Hf).
      destruct (invoke wcf other f s _) as [res this'']. simpl in *.
      destruct IH as [IHr IHp]. rewrite lookup_insert_ne in IHr by exact Hne.
      split; [exact IHr|].
      destruct (String.eqb_spec id r); [contradiction | exact IHp].
  - auto.
Qed.

(** A send to another recipient leaves the throttle of [r] alone. *)
Lemma intercepted_other_recipient prop args now this :
  ToString (arg args 0) <> r ->
  recipientThrottles (snd (intercepted wcf other entropy prop args now this)) !! r =
    recipientThrottles this !! r /\
  passed_by (Recipient r)
    (trace (fst (intercepted wcf other entropy prop args now this))) = [].
Proof.
  intros Hne. unfold intercepted.
  set (id := ToString (arg args 0)) in *.
  assert (Hlookup :
    recipientThrottles (snd (getThrottleForRecipient entropy id this)) !! r =
      recipientThrottles this !! r /\
    (fst (getThrottleForRecipient entropy id this) = OwnThrottle id \/
     exists name, fst (getThrottleForRecipient entropy id this) = Inherited name)).
  { unfold getThrottleForRecipient, get_member.
    destruct (recipientThrottles this !! id).
    - simpl. auto.
    - destruct (inherited id); simpl; [eauto|].
      rewrite lookup_insert_ne by exact Hne. auto. }
  destruct (getThrottleForRecipient entropy id this) as [w this1].
  cbn [fst snd] in Hlookup. destruct Hlookup as [Hr Hw].
  assert (Hwrap : match apply_wrapper w (Method prop args) with
                  | inr f => not_about r f
                  | inl _ => True
                  end).
  { destruct Hw as [-> | [name ->]]; simpl.
    - auto.
    - destruct (String.eqb name "constructor"); [exact I|].
      destruct (String.eqb name "toString"); exact I. }
  destruct (apply_wrapper w (Method prop args)) as [e|f].
  - simpl. auto.
  - destruct (invoke_not_about (Throttled Global (Thunk f)) now this1 Hwrap)
      as [Hr' Hp'].
    split; [congruence | exact Hp'].
Qed.

(** A send to [r] starts at least one window after the send to [r] before
    it. *)
Lemma intercepted_same_recipient prop args now this last :
  inherited r = false ->
  ToString (arg args 0) = r ->
  60000 <= now ->
  paced_at this r last ->
  exists s l',
    recipientThrottles
      (snd (intercepted wcf other entropy prop args now this)) !! r = Some l' /\
    paced l' (Some s) /\
    passed_by (Recipient r)
      (trace (fst (intercepted wcf other entropy prop args now this))) = [s] /\
    started (fst (intercepted wcf other entropy prop args now this)) = Some s /\
    match last with Some p => p + windowDuration l' <= s | None => True end.
Proof.
  intros Hin Hid Hnow Hpaced. subst r.
  destruct (intercepted_own wcf other entropy prop args now this Hin)
    as (this1 & l & Hget & Hl & Heq).
  cbv zeta in Heq. rewrite Heq. cbn [fst snd trace started recipientThrottles].
  rewrite lookup_insert_eq.
  set (g := fst (admission now (throttleGlobal this))) in *.
  assert (Hg : 3000 <= g).
  { pose proof (admission_not_early now (throttleGlobal this)). subst g. lia. }
  assert (Hl_paced : paced l last).
  { unfold paced_at in Hpaced.
    destruct (recipientThrottles this !! ToString (arg args 0)) as [l0|] eqn:Hl0.
    - rewrite (getThrottleForRecipient_again entropy _ this l0 Hl0) in Hget.
      injection Hget as <-. congruence.
    - subst last.
      destruct (getThrottleForRecipient_first entropy _ this Hin Hl0)
        as (interval & this' & Hget' & _ & Hrange & Hm & _).
      rewrite Hget' in Hget. injection Hget as <-.
      rewrite Hm, lookup_insert_eq in Hl. injection Hl as <-.
      unfold paced. simpl. lia. }
  destruct (paced_admission l last g Hl_paced Hg) as (Hp' & Hw' & Hsp).
  exists (fst (admission g l)), (snd (admission g l)).
  split; [reflexivity|]. split; [exact Hp'|].
  split; [simpl; rewrite String.eqb_refl; reflexivity|].
  split; [reflexivity|].
  rewrite Hw'. exact Hsp.
Qed.

Lemma step_paced this a last :
  inherited r = false -> clock_ok a -> paced_at this r last ->
  (passes (Recipient r) (fst (step wcf other entropy this a)) = [] /\
   recipientThrottles (snd (step wcf other entropy this a)) !! r =
     recipientThrottles this !! r) \/
  (exists s l',
     passes (Recipient r) (fst (step wcf other entropy this a)) = [s] /\
     recipientThrottles (snd (step wcf other entropy this a)) !! r = Some l' /\
     paced l' (Some s) /\
     match last with Some p => p + windowDuration l' <= s | None => True end).
Proof.
  intros Hin Hclock Hpaced.
  destruct a as [now prop args | b]; cbn [step]; [|left; simpl; auto].
  unfold call.
  destruct (proxy_get this prop) as [p|p];
    [|left; unfold immediate; destruct (is_function p); simpl; auto].
  destruct (decide (ToString (arg args 0) = r)) as [Hid|Hid].
  - right.
    destruct (intercepted_same_recipient p args now this last
                Hin Hid Hclock Hpaced) as (s & l' & Hl' & Hp' & Hpass & _ & Hsp).
    destruct (intercepted wcf other entropy p args now this) as [res this'].
    exists s, l'. cbn [fst snd] in *. unfold passes. simpl.
    rewrite Hpass. auto.
  - left.
    destruct (intercepted_other_recipient p args now this Hid) as [Hr Hpass].
    destruct (intercepted wcf other entropy p args now this) as [res this'].
    cbn [fst snd] in *. unfold passes. simpl. rewrite Hpass. auto.
Qed.

Lemma run_paced h : forall this last,
  inherited r = false -> Forall clock_ok h -> paced_at this r last ->
  match recipientThrottles (snd (run wcf other entropy h this)) !! r with
  | Some l' =>
      1000 <= windowDuration l' < 3000 /\ capacity l' = 1 /\
      spaced (windowDuration l') last
        (passes (Recipient r) (fst (run wcf other entropy h this)))
  | None => passes (Recipient r) (fst (run wcf other entropy h this)) = []
  end.
Proof.
  induction h as [|a h IH]; intros this last Hin Hclock Hpaced.
  - simpl. unfold paced_at in Hpaced.
    destruct (recipientThrottles this !! r) as [l|]; [|reflexivity].
    destruct Hpaced as (Hc & Hw & _). simpl. auto.
  - inversion Hclock as [|a' h' Ha Hh]; subst.
    pose proof (step_paced this a last Hin Ha Hpaced) as Hstep.
    cbn [run].
    destruct (step wcf other entropy this a) as [rs1 this1].
    cbn [fst snd] in Hstep.
    pose proof (run_keeps wcf other entropy h this1) as Hkeeps.
    destruct Hstep as [[Hpass Hr] | (s & l1 & Hpass & Hr & Hp1 & Hsp)].
    + assert (Hpaced1 : paced_at this1 r last).
      { unfold paced_at in *. rewrite Hr. exact Hpaced. }
      specialize (IH this1 last Hin Hh Hpaced1).
      destruct (run wcf other entropy h this1) as [rs' this'].
      cbn [fst snd] in *. rewrite passes_app, Hpass. exact IH.
    + assert (Hpaced1 : paced_at this1 r (Some s)).
      { unfold paced_at. rewrite Hr. exact Hp1. }
      specialize (IH this1 (Some s) Hin Hh Hpaced1).
      destruct (Hkeeps r l1 Hr) as (l' & Hl' & _ & Hw').
      destruct (run wcf other entropy h this1) as [rs' this'].
      cbn [fst snd] in *. rewrite passes_app, Hpass.
      rewrite Hl' in IH |- *. destruct IH as (Hw & Hc & IH).
      split; [exact Hw|]. split; [exact Hc|].
      simpl. split; [|exact IH].
      rewrite Hw'. exact Hsp.
Qed.

(** From its construction on, the sends of an agent to a recipient whose
    identifier names no member of Object.prototype pass the throttle of
    that recipient at instants that are at least its window apart; the
    window is in [1000, 3000) ms, and each send starts at the instant at
    which it passes ([intercepted_same_recipient]). *)
Lemma recipient_sends_spaced resolved options h :
  inherited r = false -> Forall clock_ok h ->
  match recipientThrottles
          (snd (run wcf other entropy h (new resolved options))) !! r with
  | Some l' =>
      1000 <= windowDuration l' < 3000 /\ capacity l' = 1 /\
      spaced (windowDuration l') None
        (passes (Recipient r)
           (fst (run wcf other entropy h (new resolved options))))
  | None =>
      passes (Recipient r)
        (fst (run wcf other entropy h (new resolved options))) = []
  end.
Proof.
  intros Hin Hclock. apply run_paced; [exact Hin | exact Hclock |].
  unfold paced_at. simpl. rewrite lookup_empty. reflexivity.
Qed.

End Pacing.

(** ** The result of a send *)

Section Results.

Variable wcf other : string -> list jsval -> Z -> outcome.
Variable entropy : nat -> Z.

Lemma apply_method_api prop args now body :
  assoc prop api = Some body ->
  apply_method wcf other prop args now =
    wcf (fst (body args)) (snd (body args)) now.
Proof.
  intros Hbody. unfold apply_method. rewrite Hbody.
  destruct (body args). reflexivity.
Qed.

(** For a recipient whose identifier names no member of Object.prototype,
    the interceptor hands on what the primitive of the transport returned
    or raised at the instant at which the send started. *)
Lemma send_result_is_transport_result target prop args now body :
  safe target = true -> is_function prop = true ->
  startsWith prop "send" = true -> assoc prop api = Some body ->
  inherited (ToString (arg args 0)) = false ->
  exists s,
    now <= s /\
    started (fst (call wcf other entropy prop args now target)) = Some s /\
    result (fst (call wcf other entropy prop args now target)) =
      wcf (fst (body args)) (snd (body args)) s.
Proof.
  intros Hsafe Hfun Hsend Hbody Hin.
  unfold call. rewrite (proxy_get_send target prop Hsafe Hfun Hsend).
  destruct (intercepted_own wcf other entropy prop args now target Hin)
    as (target1 & l & _ & _ & Heq).
  cbv zeta in Heq. rewrite Heq. cbn [fst started result].
  eexists. split; [|split; [reflexivity | apply apply_method_api, Hbody]].
  etransitivity; apply admission_not_early.
Qed.

End Results.

(** ** The windows of a limiter *)

Lemma count_within_snoc lo hi l s :
  count_within lo hi (app l [s]) =
    Nat.add (count_within lo hi l)
      (if (lo <=? s) && (s <? hi) then 1%nat else 0%nat).
Proof.
  unfold count_within. rewrite List.filter_app, length_app. simpl.
  destruct ((lo <=? s) && (s <? hi)); reflexivity.
Qed.

Lemma count_within_before lo hi l :
  Forall (fun s => s < lo) l -> count_within lo hi l = 0%nat.
Proof.
  unfold count_within. induction 1 as [|s l Hs _ IH]; simpl; [reflexivity|].
  destruct (Z.leb_spec lo s); [lia | exact IH].
Qed.

(** For arrivals in the order of time, a limiter starts the calls in the
    order in which they arrive: that is why [run] can treat the two
    limiters of one call together. *)
Lemma admission_monotone now now' l :
  0 <= windowDuration l -> now <= now' ->
  fst (admission now l) <= fst (admission now' (snd (admission now l))).
Proof.
  intros Hw Hle.
  pose proof (admission_cases now l) as H.
  destruct (admission now l) as [s l1]. cbn [fst snd].
  pose proof (admission_cases now' l1) as H1.
  destruct (admission now' l1) as [s' l2]. cbn [fst].
  intuition lia.
Qed.

Lemma windowed_admission now l starts :
  windowed l starts ->
  windowed (snd (admission now l)) (app starts [fst (admission now l)]).
Proof.
  intros (Hw & Hcap & Hu & Hall & Hcount).
  pose proof (admission_cases now l) as H.
  destruct (admission now l) as [s l']. cbn [fst snd].
  destruct H as (Hc' & Hw' & H).
  unfold windowed. rewrite Hc', Hw', count_within_snoc.
  assert (Hzero : forall ws', windowStart l + windowDuration l <= ws' ->
            count_within ws' (ws' + windowDuration l) starts = 0%nat).
  { intros ws' Hws'. apply count_within_before.
    eapply List.Forall_impl; [|exact Hall]. simpl. intros; lia. }
  destruct H as [(He & -> & Hws & Hu') | [(Hn & Hroom & -> & Hws & Hu')
                                         | (Hn & Hfull & -> & Hws & Hu')]];
    rewrite Hws, Hu'.
  - rewrite Hzero by lia.
    split; [lia|]. split; [lia|]. split; [lia|]. split.
    + apply Forall_app. split; [|constructor; [lia | constructor]].
      eapply List.Forall_impl; [|exact Hall]. simpl. intros; lia.
    + destruct (Z.leb_spec now now), (Z.ltb_spec now (now + windowDuration l));
        simpl; lia.
  - split; [lia|]. split; [lia|]. split; [lia|]. split.
    + apply Forall_app. split; [exact Hall|].
      constructor; [lia | constructor].
    + destruct ((windowStart l <=? Z.max now (windowStart l)) &&
                (Z.max now (windowStart l) <? windowStart l + windowDuration l));
        lia.
  - rewrite Hzero by lia.
    split; [lia|]. split; [lia|]. split; [lia|]. split.
    + apply Forall_app. split; [|constructor; [lia | constructor]].
      eapply List.Forall_impl; [|exact Hall]. simpl. intros; lia.
    + destruct ((windowStart l + windowDuration l <=?
                 windowStart l + windowDuration l) &&
                (windowStart l + windowDuration l <?
                 windowStart l + windowDuration l + windowDuration l));
        simpl; lia.
Qed.

Lemma windowed_kept l starts :
  windowed l starts -> window_kept (windowStart l) l starts.
Proof. intros (Hw & Hcap & Hu & Hall & Hcount). split; [auto | lia]. Qed.

Lemma window_kept_admission b now l starts :
  windowed l starts -> window_kept b l starts ->
  window_kept b (snd (admission now l)) (app starts [fst (admission now l)]).
Proof.
  intros Hwin [Hb Hcount].
  pose proof (windowed_admission now l starts Hwin) as Hwin'.
  destruct Hwin as (Hw & Hcap & Hu & Hall & Hcur).
  pose proof (admission_cases now l) as H.
  destruct (admission now l) as [s l']. cbn [fst snd] in *.
  destruct H as (Hc' & Hw' & H).
  destruct (Z.eq_dec b (windowStart l')) as [->|Hne].
  - destruct Hwin' as (_ & _ & Hu' & _ & Hcur').
    split; [auto|]. lia.
  - unfold window_kept. rewrite Hc', Hw', count_within_snoc.
    assert (Hold : b + windowDuration l <= windowStart l' /\
                   b + windowDuration l <= s) by (intuition lia).
    split; [right; lia|].
    destruct (Z.ltb_spec s (b + windowDuration l)); [lia|].
    rewrite andb_false_r. lia.
Qed.

Section GlobalWindows.

Variable wcf other : string -> list jsval -> Z -> outcome.
Variable entropy : nat -> Z.

Lemma invoke_not_global f : forall now this,
  not_global f ->
  throttleGlobal (snd (invoke wcf other f now this)) = throttleGlobal this /\
  passed_by Global (trace (fst (invoke wcf other f now this))) = [].
Proof.
  induction f as [prop args | f IH | g f IH | repr]; intros now this Hf;
    cbn [invoke].
  - auto.
  - apply IH, Hf.
  - destruct g as [|id]; [contradiction|]. cbn [admission_at].
    destruct (recipientThrottles this !! id) as [l0|]; [|simpl; auto].
    destruct (admission now l0) as [s l].
    specialize (IH s {| safe := safe this;
                        throttleGlobal := throttleGlobal this;
                        recipientThrottles := <[id := l]> (recipientThrottles this);
                        randomInts := randomInts this |} Hf).
    destruct (invoke wcf other f s _) as [res this'']. simpl in *. exact IH.
  - auto.
Qed.

(** A call through the interceptor goes to the global limiter once, at the
    instant of the call, or not at all. *)
Lemma intercepted_global prop args now this :
  let x := intercepted wcf other entropy prop args now this in
  (throttleGlobal (snd x) = throttleGlobal this /\
   passed_by Global (trace (fst x)) = []) \/
  (throttleGlobal (snd x) = snd (admission now (throttleGlobal this)) /\
   passed_by Global (trace (fst x)) = [fst (admission now (throttleGlobal this))]).
Proof.
  unfold intercepted.
  set (id := ToString (arg args 0)).
  assert (Hlookup :
    throttleGlobal (snd (getThrottleForRecipient entropy id this)) =
      throttleGlobal this /\
    (fst (getThrottleForRecipient entropy id this) = OwnThrottle id \/
     exists name, fst (getThrottleForRecipient entropy id this) = Inherited name)).
  { unfold getThrottleForRecipient, get_member.
    destruct (recipientThrottles this !! id); [simpl; auto|].
    destruct (inherited id); simpl; eauto. }
  destruct (getThrottleForRecipient entropy id this) as [w this1].
  cbn [fst snd] in Hlookup. destruct Hlookup as [Hg Hw].
  assert (Hwrap : match apply_wrapper w (Method prop args) with
                  | inr f => not_global f
                  | inl _ => True
                  end).
  { destruct Hw as [-> | [name ->]]; simpl.
    - auto.
    - destruct (String.eqb name "constructor"); [exact I|].
      destruct (String.eqb name "toString"); exact I. }
  destruct (apply_wrapper w (Method prop args)) as [e|f].
  - left. simpl. auto.
  - right. cbn [invoke admission_at]. rewrite Hg.
    destruct (admission now (throttleGlobal this)) as [s l].
    pose proof (invoke_not_global f s
                  {| safe := safe this1; throttleGlobal := l;
                     recipientThrottles := recipientThrottles this1;
                     randomInts := randomInts this1 |} Hwrap) as [Hg' Hp'].
    destruct (invoke wcf other f s _) as [res this'']. simpl in *.
    rewrite Hp'. auto.
Qed.

Lemma step_windowed this a starts :
  windowed (throttleGlobal this) starts ->
  let x := step wcf other entropy this a in
  windowed (throttleGlobal (snd x)) (app starts (passes Global (fst x))) /\
  forall b,
    window_kept b (throttleGlobal this) starts ->
    window_kept b (throttleGlobal (snd x)) (app starts (passes Global (fst x))).
Proof.
  intros Hwin.
  assert (Hsame : forall x : list call_result * agent,
            throttleGlobal (snd x) = throttleGlobal this ->
            passes Global (fst x) = [] ->
            windowed (throttleGlobal (snd x)) (app starts (passes Global (fst x))) /\
            forall b,
              window_kept b (throttleGlobal this) starts ->
              window_kept b (throttleGlobal (snd x))
                (app starts (passes Global (fst x)))).
  { intros x -> ->. rewrite app_nil_r. auto. }
  destruct a as [now prop args | b]; cbn [step]; [|apply Hsame; reflexivity].
  unfold call.
  destruct (proxy_get this prop) as [p|p];
    [|apply Hsame; unfold immediate; destruct (is_function p); reflexivity].
  pose proof (intercepted_global p args now this) as H. cbv zeta in H.
  destruct (intercepted wcf other entropy p args now this) as [res this'].
  cbn [fst snd] in *.
  destruct H as [[Hg Hp] | [Hg Hp]].
  - apply (Hsame ([res], this')); [exact Hg|].
    unfold passes. simpl. rewrite Hp. reflexivity.
  - unfold passes. simpl. rewrite Hp, Hg. simpl. split.
    + apply windowed_admission, Hwin.
    + intros b0 Hb. apply window_kept_admission; assumption.
Qed.

Lemma run_windowed h : forall this starts,
  windowed (throttleGlobal this) starts ->
  let x := run wcf other entropy h this in
  windowed (throttleGlobal (snd x)) (app starts (passes Global (fst x))) /\
  forall b,
    window_kept b (throttleGlobal this) starts ->
    window_kept b (throttleGlobal (snd x)) (app starts (passes Global (fst x))).
Proof.
  induction h as [|a h IH]; intros this starts Hwin; cbn [run].
  - simpl. rewrite app_nil_r. auto.
  - pose proof (step_windowed this a starts Hwin) as Hstep. cbv zeta in Hstep.
    destruct (step wcf other entropy this a) as [rs1 this1].
    cbn [fst snd] in Hstep. destruct Hstep as [Hwin1 Hkept1].
    specialize (IH this1 _ Hwin1). cbv zeta in IH.
    destruct (run wcf other entropy h this1) as [rs' this'].
    cbn [fst snd] in *. destruct IH as [Hwin' Hkept'].
    rewrite passes_app, app_assoc.
    split; [exact Hwin'|]. intros b Hb. apply Hkept', Hkept1, Hb.
Qed.

Lemma run_app h1 h2 this :
  run wcf other entropy (app h1 h2) this =
    (app (fst (run wcf other entropy h1 this))
         (fst (run wcf other entropy h2 (snd (run wcf other entropy h1 this)))),
     snd (run wcf other entropy h2 (snd (run wcf other entropy h1 this)))).
Proof.
  revert this. induction h1 as [|a h1 IH]; intros this; cbn [run app].
  - simpl. destruct (run wcf other entropy h2 this). reflexivity.
  - destruct (step wcf other entropy this a) as [rs1 this1].
    rewrite IH.
    destruct (run wcf other entropy h1 this1) as [rs1' this1'].
    cbn [fst snd].
    destruct (run wcf other entropy h2 this1') as [rs2 this2].
    cbn [fst snd]. rewrite app_assoc. reflexivity.
Qed.

Lemma step_global_shape this a :
  capacity (throttleGlobal (snd (step wcf other entropy this a))) =
    capacity (throttleGlobal this) /\
  windowDuration (throttleGlobal (snd (step wcf other entropy this a))) =
    windowDuration (throttleGlobal this).
Proof.
  destruct a as [now prop args | b]; cbn [step]; [|simpl; auto].
  unfold call. destruct (proxy_get this prop) as [p|p];
    [|unfold immediate; destruct (is_function p); simpl; auto].
  pose proof (intercepted_global p args now this) as H. cbv zeta in H.
  destruct (intercepted wcf other entropy p args now this) as [res this'].
  cbn [fst snd] in *. destruct H as [[-> _] | [-> _]]; [auto|].
  split; [apply admission_capacity | apply admission_windowDuration].
Qed.

Lemma run_global_shape h : forall this,
  capacity (throttleGlobal (snd (run wcf other entropy h this))) =
    capacity (throttleGlobal this) /\
  windowDuration (throttleGlobal (snd (run wcf other entropy h this))) =
    windowDuration (throttleGlobal this).
Proof.
  induction h as [|a h IH]; intros this; [simpl; auto|].
  cbn [run]. pose proof (step_global_shape this a) as Hstep.
  destruct (step wcf other entropy this a) as [rs1 this1].
  cbn [snd] in Hstep. specialize (IH this1).
  destruct (run wcf other entropy h this1) as [rs' this'].
  cbn [snd] in *. destruct IH, Hstep. split; congruence.
Qed.

(** What the global limiter does bound: in safe mode or not, of all the
    calls of a history at most 40 pass the global limiter within the 60
    seconds that follow the beginning [b] of any of its windows. *)
Lemma global_limiter_lets_forty_pass resolved options h1 h2 :
  let b :=
    windowStart (throttleGlobal (snd (run wcf other entropy h1
                                        (new resolved options)))) in
  (count_within b (b + 60000)
     (passes Global (fst (run wcf other entropy (app h1 h2)
                            (new resolved options)))) <= 40)%nat.
Proof.
  intros b.
  assert (Hnew : windowed (throttleGlobal (new resolved options)) []).
  { unfold windowed. simpl.
    split; [lia|]. split; [lia|]. split; [lia|]. split; [apply Forall_nil_2 | unfold count_within; simpl; lia]. }
  destruct (run_windowed h1 _ _ Hnew) as [Hwin1 _]. cbv zeta in Hwin1.
  pose proof (windowed_kept _ _ Hwin1) as Hkept1. fold b in Hkept1.
  destruct (run_windowed h2 _ _ Hwin1) as [_ Hkept2]. cbv zeta in Hkept2.
  specialize (Hkept2 b Hkept1).
  rewrite run_app. cbn [fst]. rewrite passes_app.
  simpl in Hkept2. destruct Hkept2 as [_ Hcount].
  destruct (run_global_shape h1 (new resolved options)) as [Hc1 Hw1].
  destruct (run_global_shape h2
              (snd (run wcf other entropy h1 (new resolved options))))
    as [Hc2 Hw2].
  rewrite Hc2, Hc1, Hw2, Hw1 in Hcount. simpl in Hcount. lia.
Qed.

End GlobalWindows.

(** ** The scenarios of the specification *)

(** Each value of [1000, 3000) is drawn for exactly one residue of the
    outcome of the random source. *)
Lemma randomInt_each_value entropy k v :
  1000 <= v < 3000 ->
  randomInt entropy 1000 3000 k = v <-> entropy k mod 2000 = v - 1000.
Proof.
  intros Hv. unfold randomInt. change (3000 - 1000) with 2000. lia.
Qed.

(** Scenario A: three sends to one recipient, one after the other: they
    start one window apart, and the registry holds one throttle, for which
    one window was drawn. *)
Example scenario_A :
  let '(rs, this) :=
    Example.run [Example.sendText "alice" Example.t0;
                 Example.sendText "alice" (Example.t0 + 1);
                 Example.sendText "alice" (Example.t0 + 2)] in
  map started rs =
    [Some Example.t0; Some (Example.t0 + 2000); Some (Example.t0 + 4000)] /\
  size (recipientThrottles this) = 1%nat /\ randomInts this = 1%nat /\
  windowDuration <$> (recipientThrottles this !! "alice") = Some 2000.
Proof. vm_compute. auto. Qed.

(** Scenario B: forty-one recipients send once each at the same instant:
    forty sends start at once, the last one when the window of the global
    limiter rolls over. *)
Example scenario_B :
  let rs :=
    fst (Example.run (map (fun r => Example.sendText r Example.t0)
                        (app Example.recipients ["wxid_alice"]))) in
  started_within Example.t0 (Example.t0 + 60000) rs = 40%nat /\
  started <$> List.last (map Some rs) None = Some (Some (Example.t0 + 60000)).
Proof. vm_compute. auto. Qed.

(** Scenario C, in the layout of the examples: a field of the sender with
    the value wxid_abc123 decodes to that identifier. *)
Example scenario_C :
  Decoders.getWxidFromBytesExtra Example.sender_type
    (Decoders.decodeBytesExtra Decoders.tlv_property
       ([x07; x01; "x"; x01; x0b;
         "w"; "x"; "i"; "d"; "_"; "a"; "b"; "c"; "1"; "2"; "3"]%byte)) =
  Some "wxid_abc123".
Proof. reflexivity. Qed.

(** Scenario D, in the layout of the examples: three member sub-records
    decode to their identifiers in order; a buffer that is cut short after
    two sub-records decodes to those two. *)
Example scenario_D :
  Decoders.members
    (Decoders.decodeRoomData Decoders.tlv_member
       ([x01; x02; "w"; "1"; x01; x02; "w"; "2"; x01; x02; "w"; "3"]%byte)) =
    Some [Decoders.Member "w1"; Decoders.Member "w2"; Decoders.Member "w3"] /\
  map detail_memberIdList
    (getChatRoomDetailList Example.dbSqlQuery Decoders.tlv_member) =
    [["w1"; "w2"]].
Proof. split; reflexivity. Qed.

(** * The claims of the specification *)

(** ** The interceptor and the limiters *)

Section Claims.

Variable wcf other : string -> list jsval -> Z -> outcome.
Variable entropy : nat -> Z.
Variable resolved : WechatferryAgentUserOptions -> bool.

(** C1 (amended): a send operation that is called in safe mode, for a
    recipient whose identifier names no member of Object.prototype, is first
    submitted to the global limiter; at the instant [g] at which the global
    limiter admits it, it is submitted to the throttle [l] of the recipient;
    the operation of the target runs at the instant [s] at which that
    throttle admits it, and not before: now <= g <= s. *)
Theorem send_passes_global_then_recipient target prop args now :
  safe target = true ->
  is_function prop = true ->
  startsWith prop "send" = true ->
  inherited (ToString (arg args 0)) = false ->
  let id := ToString (arg args 0) in
  exists l target',
    recipientThrottles (snd (getThrottleForRecipient entropy id target)) !! id =
      Some l /\
    let g := fst (admission now (throttleGlobal target)) in
    let s := fst (admission g l) in
    call wcf other entropy prop args now target =
      ({| result := apply_method wcf other prop args s;
          started := Some s;
          trace := [Submitted Global now; Passed Global g;
                    Submitted (Recipient id) g; Passed (Recipient id) s;
                    Executed prop args s] |}, target') /\
    now <= g <= s.
Proof.
  intros Hsafe Hfun Hsend Hin id.
  unfold call. rewrite (proxy_get_send target prop Hsafe Hfun Hsend).
  destruct (intercepted_own wcf other entropy prop args now target Hin)
    as (target1 & l & Hget & Hl & Heq).
  fold id in Hget, Hl, Heq. cbv zeta in Heq.
  exists l. eexists. rewrite Hget. split; [exact Hl|].
  cbv zeta. rewrite Heq. split; [reflexivity|].
  split; apply admission_not_early.
Qed.

(** C5 (amended): the handler reads the field [safe] of the target at each
    lookup, and by it alone decides between the interceptor and the plain
    member; the constructor sets the field from the configuration and no
    call of a member changes it, so after a history in which the client
    never assigns the field, every lookup is treated as at construction. *)
Theorem safe_read_at_each_lookup options h :
  forallb is_call h = true ->
  (forall a b prop, safe a = safe b -> proxy_get a prop = proxy_get b prop) /\
  safe (snd (run wcf other entropy h (new resolved options))) = resolved options /\
  forall prop,
    proxy_get (snd (run wcf other entropy h (new resolved options))) prop =
    proxy_get (new resolved options) prop.
Proof.
  intros Hcalls.
  assert (Hdep : forall a b prop, safe a = safe b -> proxy_get a prop = proxy_get b prop).
  { intros a b prop Hab. unfold proxy_get. rewrite Hab. reflexivity. }
  assert (Hinv : forall l this, forallb is_call l = true ->
            safe (snd (run wcf other entropy l this)) = safe this).
  { induction l as [|a l IH]; intros this Hl; [reflexivity|].
    simpl in Hl. apply andb_true_iff in Hl as [Ha Hl].
    destruct a as [now prop args | b]; [|discriminate].
    simpl. pose proof (call_keeps wcf other entropy prop args now this) as [_ Hs].
    destruct (call wcf other entropy prop args now this) as [r this'].
    specialize (IH this' Hl).
    destruct (run wcf other entropy l this') as [rs this'']. simpl in *.
    congruence. }
  split; [exact Hdep|].
  split; [exact (Hinv h (new resolved options) Hcalls)|].
  intros prop. apply Hdep. apply (Hinv h _ Hcalls).
Qed.

(** C8 (failing input): in safe mode, a send to the recipient "toString"
    fails with a TypeError of the interceptor, and the operation of the
    target never starts, whatever the transport would have done. *)
Theorem send_to_toString_fails :
  let r := fst (call wcf other entropy "sendText"
                  [JString "toString"; JString "hello"]
                  Example.t0 Example.safe_agent) in
  result r = Raised TypeError /\ started r = None /\
  gate_order (trace r) = [Global].
Proof. vm_compute. auto. Qed.

(** C9: in safe mode as in unsafe mode, a member whose name does not start
    with "send" is not intercepted: its call is the call of the member
    itself, which passes no limiter and leaves the agent, with its global
    limiter and its registry, as it was.  So forwardMsg,
    inviteChatRoomMembers, addChatRoomMembers and removeChatRoomMembers run
    at the instant of the call.  And a member that is intercepted has a name
    that starts with "send", on an agent in safe mode. *)
Theorem only_send_operations_throttled target args now :
  (forall prop, startsWith prop "send" = false ->
     call wcf other entropy prop args now target =
       immediate wcf other prop args now target) /\
  (forall prop,
     snd (immediate wcf other prop args now target) = target /\
     gate_order (trace (fst (immediate wcf other prop args now target))) = []) /\
  (forall prop,
     In prop ["forwardMsg"; "inviteChatRoomMembers"; "addChatRoomMembers";
              "removeChatRoomMembers"] ->
     call wcf other entropy prop args now target =
       ({| result := apply_method wcf other prop args now;
           started := Some now;
           trace := [Executed prop args now] |}, target)) /\
  (forall prop p, proxy_get target prop = Interceptor p ->
     p = prop /\ safe target = true /\ is_function prop = true /\
     startsWith prop "send" = true).
Proof.
  split; [|split; [|split]].
  - intros prop Hp. apply call_plain, proxy_get_other, Hp.
  - intros prop. apply immediate_no_gate.
  - intros prop Hin.
    assert (Hp : startsWith prop "send" = false /\ is_function prop = true).
    { simpl in Hin. intuition (subst; reflexivity). }
    destruct Hp as [Hp Hf].
    rewrite (call_plain wcf other entropy target prop args now
               (proxy_get_other target prop Hp)).
    unfold immediate. rewrite Hf. reflexivity.
  - intros prop p. unfold proxy_get.
    destruct (safe target), (is_function prop), (startsWith prop "send");
      simpl; intros [= <-]; auto.
Qed.

End Claims.

(** C1 (counterexample): a send of an agent in safe mode is not submitted to
    the throttle of its recipient first and to the global limiter second:
    the global limiter comes first. *)
Lemma send_not_recipient_first :
  let order :=
    gate_order
      (trace (fst (call Example.wcf Example.other Example.entropy "sendText"
                     [JString "wxid_alice"; JString "hello"]
                     Example.t0 Example.safe_agent))) in
  order = [Global; Recipient "wxid_alice"] /\
  order <> [Recipient "wxid_alice"; Global].
Proof. vm_compute. split; [reflexivity | discriminate]. Qed.

Lemma send_passes_global_then_recipient_witness :
  safe Example.safe_agent = true /\
  is_function "sendText" = true /\
  startsWith "sendText" "send" = true /\
  inherited (ToString (arg [JString "wxid_alice"; JString "hello"] 0)) = false /\
  exists l target',
    recipientThrottles
      (snd (getThrottleForRecipient Example.entropy "wxid_alice"
              Example.safe_agent)) !! "wxid_alice" = Some l /\
    let g := fst (admission Example.t0 (throttleGlobal Example.safe_agent)) in
    let s := fst (admission g l) in
    call Example.wcf Example.other Example.entropy "sendText"
      [JString "wxid_alice"; JString "hello"] Example.t0 Example.safe_agent =
      ({| result := apply_method Example.wcf Example.other "sendText"
                      [JString "wxid_alice"; JString "hello"] s;
          started := Some s;
          trace := [Submitted Global Example.t0; Passed Global g;
                    Submitted (Recipient "wxid_alice") g;
                    Passed (Recipient "wxid_alice") s;
                    Executed "sendText"
                      [JString "wxid_alice"; JString "hello"] s] |},
       target') /\
    Example.t0 <= g <= s.
Proof.
  split; [reflexivity|]. split; [reflexivity|].
  split; [reflexivity|]. split; [reflexivity|].
  apply (send_passes_global_then_recipient Example.wcf Example.other
           Example.entropy Example.safe_agent "sendText"
           [JString "wxid_alice"; JString "hello"] Example.t0);
    reflexivity.
Defined.

(** C5 (counterexample): an agent constructed in safe mode, whose field
    [safe] the client then sets to false, no longer intercepts sendText. *)
Lemma safe_can_be_reassigned :
  safe Example.safe_agent = true /\
  proxy_get Example.safe_agent "sendText" = Interceptor "sendText" /\
  proxy_get (snd (Example.run [SetSafe false])) "sendText" = Plain "sendText" /\
  map (fun r => (started r, gate_order (trace r)))
    (fst (Example.run [SetSafe false;
                       Example.sendText "wxid_alice" Example.t0;
                       Example.sendText "wxid_alice" Example.t0])) =
    [(Some Example.t0, []); (Some Example.t0, [])].
Proof. vm_compute. auto. Qed.

Lemma safe_read_at_each_lookup_witness :
  forallb is_call [Example.sendText "wxid_alice" Example.t0] = true /\
  forall prop,
    proxy_get (snd (run Example.wcf Example.other Example.entropy
                      [Example.sendText "wxid_alice" Example.t0]
                      (new Example.resolved {| opt_safe := Some true |}))) prop =
    proxy_get (new Example.resolved {| opt_safe := Some true |}) prop.
Proof.
  split; [reflexivity|].
  apply (safe_read_at_each_lookup Example.wcf Example.other Example.entropy
           Example.resolved {| opt_safe := Some true |}
           [Example.sendText "wxid_alice" Example.t0]).
  reflexivity.
Defined.

Lemma only_send_operations_throttled_witness :
  startsWith "forwardMsg" "send" = false /\
  call Example.wcf Example.other Example.entropy "forwardMsg"
    [JString "wxid_alice"; JString "42"] Example.t0 Example.safe_agent =
  immediate Example.wcf Example.other "forwardMsg"
    [JString "wxid_alice"; JString "42"] Example.t0 Example.safe_agent.
Proof.
  split; [reflexivity|].
  apply (proj1 (only_send_operations_throttled Example.wcf Example.other
                  Example.entropy Example.safe_agent
                  [JString "wxid_alice"; JString "42"] Example.t0)).
  reflexivity.
Defined.

(** C2 (failing input): forty sends to one recipient at [t0] and, 60001 ms
    later, one send to each of forty other recipients.  The global limiter
    opens its second window at [t0 + 60001]; within the 60 seconds of that
    window 49 operations of the target start: the forty of the second batch
    and nine of the first, which the throttle of their recipient held back
    after the global limiter had admitted them. *)
Theorem burst_exceeds_global_limit :
  let '(rs, this) := Example.run Example.burst in
  length rs = 80%nat /\
  capacity (throttleGlobal this) = 40 /\
  windowDuration (throttleGlobal this) = 60000 /\
  windowStart (throttleGlobal this) = Example.t0 + 60001 /\
  started_within (Example.t0 + 60001) (Example.t0 + 60001 + 60000) rs = 49%nat.
Proof. vm_compute. auto. Qed.

(** C3 (failing input): two sends in safe mode to the recipient
    "constructor" at the same instant both start at that instant, and the
    registry holds no throttle for that recipient afterwards. *)
Theorem sends_to_constructor_not_spaced
    (wcf other : string -> list jsval -> Z -> outcome) (entropy : nat -> Z) :
  let '(rs, this) :=
    run wcf other entropy
      [Example.sendText "constructor" Example.t0;
       Example.sendText "constructor" Example.t0] Example.safe_agent in
  map started rs = [Some Example.t0; Some Example.t0] /\
  map (fun r => gate_order (trace r)) rs = [[Global]; [Global]] /\
  recipientThrottles this !! "constructor" = None.
Proof. vm_compute. auto. Qed.

(** C4 (failing input): whatever the agent has done since its construction,
    the lookup of the recipient identifier "constructor" finds the member
    that the registry object inherits from Object.prototype: it returns
    that member, stores no throttle and draws no window. *)
Theorem getThrottleForRecipient_constructor
    (wcf other : string -> list jsval -> Z -> outcome) (entropy : nat -> Z)
    (resolved : WechatferryAgentUserOptions -> bool)
    (options : WechatferryAgentUserOptions) (h : list action) :
  let this := snd (run wcf other entropy h (new resolved options)) in
  getThrottleForRecipient entropy "constructor" this =
    (Inherited "constructor", this) /\
  recipientThrottles this !! "constructor" = None.
Proof.
  intros this.
  assert (Hnone : recipientThrottles this !! "constructor" = None).
  { apply (run_no_inherited_key wcf other entropy h); [|reflexivity].
    intros k _. apply lookup_empty. }
  split; [|exact Hnone].
  unfold getThrottleForRecipient, get_member. rewrite Hnone. reflexivity.
Qed.

(** ** The reads and the decoders *)

Section ReadClaims.

Variable dbSqlQuery : forall T, store -> sql T -> list T.
Variable getSelfWxid : string.
Variable read_member : Decoders.bytes -> option (Decoders.member * Decoders.bytes).
Variable read_property : Decoders.bytes -> option (Decoders.property * Decoders.bytes).
Variable sender_type : Z.

(** C6: getHistoryMessageList returns one row for each row of the query.
    For a row whose sender-extra buffer is empty, is truncated or malformed
    at some point, or is well formed without a field of the sender, the
    decoded sender is absent and the returned row carries the identifier of
    the own account as talkerWxid. *)
Theorem absent_sender_falls_back_to_self userName filter :
  let rows :=
    dbSqlQuery _ MSG0
      (SelectMSG (getTalkerId dbSqlQuery userName) filter) in
  let out :=
    getHistoryMessageList dbSqlQuery getSelfWxid read_property sender_type
      userName filter in
  length out = length rows /\
  forall i m,
    rows !! i = Some m ->
    BytesExtra m = [] \/
    Decoders.truncated read_property (BytesExtra m) \/
    Decoders.lacks_sender read_property sender_type (BytesExtra m) ->
    Decoders.getWxidFromBytesExtra sender_type
      (Decoders.decodeBytesExtra read_property (BytesExtra m)) = None /\
    out !! i = Some {| msg := m; talkerWxid := getSelfWxid |}.
Proof.
  intros rows out. split.
  - unfold out, getHistoryMessageList. apply length_map.
  - intros i m Hi Hbuf.
    pose proof (sender_absent read_property sender_type _ Hbuf) as Habs.
    split; [exact Habs|].
    unfold out, getHistoryMessageList. fold rows.
    rewrite lookup_map, Hi. simpl. rewrite Habs. reflexivity.
Qed.

(** C7: getChatRoomDetailList returns one row for each row of the query.
    The room-membership buffer of a row splits into well-formed member
    sub-records followed by a point where no sub-record can be read (the
    end of the buffer, or a truncated or malformed point), and the
    memberIdList of the returned row is the identifiers of those members,
    in the order of the buffer: the empty list when there is none. *)
Theorem room_members_up_to_malformed_point :
  (forall buf m rest,
     read_member buf = Some (m, rest) -> (length rest < length buf)%nat) ->
  let rows := dbSqlQuery _ MicroMsg SelectChatRoomDetailList in
  let out := getChatRoomDetailList dbSqlQuery read_member in
  length out = length rows /\
  forall i v,
    rows !! i = Some v ->
    (exists ms rest,
       Decoders.holds_members read_member (RoomData v) ms rest /\
       Decoders.no_member_at read_member rest) /\
    forall ms rest,
      Decoders.holds_members read_member (RoomData v) ms rest ->
      Decoders.no_member_at read_member rest ->
      out !! i =
        Some {| detail_row := v; ownerUserName := Reserved2 v;
                detail_memberIdList := map Decoders.wxid ms |}.
Proof.
  intros Hconsumes rows out. split.
  - unfold out, getChatRoomDetailList. apply length_map.
  - intros i v Hi.
    destruct (read_members_holds read_member Hconsumes
                (length (RoomData v)) (RoomData v) (Nat.le_refl _))
      as (rest0 & Hholds0 & Hstop0).
    split; [eauto|].
    intros ms rest Hholds Hstop.
    unfold out, getChatRoomDetailList. fold rows.
    rewrite lookup_map, Hi. simpl.
    rewrite (holds_members_unique read_member _ _ _ Hholds Hstop _ _
               Hholds0 Hstop0).
    reflexivity.
Qed.

(** C10: when the query of getChatRoomInfo, getContactInfo or getTalkerId
    returns no row, the operation returns undefined; and getChatRoomMembers
    returns undefined when the query of getChatRoomInfo returns no row. *)
Theorem single_record_reads_absent userName :
  (dbSqlQuery _ MicroMsg (SelectChatRoomInfo userName) = [] ->
   getChatRoomInfo dbSqlQuery userName = None /\
   getChatRoomMembers dbSqlQuery userName = None) /\
  (dbSqlQuery _ MicroMsg (SelectContactInfo userName) = [] ->
   getContactInfo dbSqlQuery userName = None) /\
  (dbSqlQuery _ MSG0 (SelectTalkerId userName) = [] ->
   getTalkerId dbSqlQuery userName = None).
Proof.
  unfold getChatRoomMembers, getChatRoomInfo, getContactInfo, getTalkerId.
  split; [|split]; intros H; rewrite H; auto.
Qed.

End ReadClaims.

Lemma absent_sender_falls_back_to_self_witness :
  let out :=
    getHistoryMessageList Example.dbSqlQuery "wxid_self"
      Decoders.tlv_property Example.sender_type "wxid_alice" None in
  Decoders.truncated Decoders.tlv_property [x01; x09; "w"]%byte /\
  Decoders.lacks_sender Decoders.tlv_property Example.sender_type
    Example.no_sender_field /\
  out !! 0%nat =
    Some {| msg := {| msg_columns := ∅; BytesExtra := [] |};
            talkerWxid := "wxid_self" |} /\
  out !! 1%nat =
    Some {| msg := {| msg_columns := ∅;
                      BytesExtra := [x01; x09; "w"]%byte |};
            talkerWxid := "wxid_self" |} /\
  out !! 2%nat =
    Some {| msg := {| msg_columns := ∅;
                      BytesExtra := Example.no_sender_field |};
            talkerWxid := "wxid_self" |}.
Proof.
  intros out.
  assert (Htruncated :
    Decoders.truncated Decoders.tlv_property [x01; x09; "w"]%byte).
  { exists [], [x01; x09; "w"]%byte.
    split; [apply Decoders.holds_properties_nil|].
    split; [discriminate | reflexivity]. }
  assert (Hlacks :
    Decoders.lacks_sender Decoders.tlv_property Example.sender_type
      Example.no_sender_field).
  { exists [Decoders.Property 7 "x"]. split.
    - eapply Decoders.holds_properties_cons; [discriminate | reflexivity |].
      apply Decoders.holds_properties_nil.
    - constructor; [discriminate | constructor]. }
  split; [exact Htruncated|]. split; [exact Hlacks|].
  destruct (absent_sender_falls_back_to_self Example.dbSqlQuery "wxid_self"
              Decoders.tlv_property Example.sender_type "wxid_alice" None)
    as [_ Hrows].
  split; [|split].
  - exact (proj2 (Hrows 0%nat _ eq_refl (or_introl eq_refl))).
  - exact (proj2 (Hrows 1%nat _ eq_refl (or_intror (or_introl Htruncated)))).
  - exact (proj2 (Hrows 2%nat _ eq_refl (or_intror (or_intror Hlacks)))).
Defined.

Lemma room_members_up_to_malformed_point_witness :
  (forall buf m rest,
     Decoders.tlv_member buf = Some (m, rest) ->
     (length rest < length buf)%nat) /\
  getChatRoomDetailList Example.dbSqlQuery Decoders.tlv_member !! 0%nat =
    Some {| detail_row :=
              {| detail_columns := ∅;
                 RoomData := Example.two_members_then_cut;
                 Reserved2 := Text "wxid_owner" |};
            ownerUserName := Text "wxid_owner";
            detail_memberIdList := ["w1"; "w2"] |}.
Proof.
  split; [exact tlv_member_consumes|].
  destruct (room_members_up_to_malformed_point Example.dbSqlQuery
              Decoders.tlv_member tlv_member_consumes) as [_ Hrows].
  destruct (Hrows 0%nat _ eq_refl) as [_ Hrow].
  apply (Hrow [Decoders.Member "w1"; Decoders.Member "w2"]
              [x01; x02; "w"]%byte).
  - eapply Decoders.holds_members_cons; [discriminate | reflexivity |].
    eapply Decoders.holds_members_cons; [discriminate | reflexivity |].
    apply Decoders.holds_members_nil.
  - right. reflexivity.
Defined.

Lemma single_record_reads_absent_witness :
  Example.dbSqlQuery _ MicroMsg (SelectChatRoomInfo "42@chatroom") = [] /\
  getChatRoomInfo Example.dbSqlQuery "42@chatroom" = None /\
  getChatRoomMembers Example.dbSqlQuery "42@chatroom" = None.
Proof.
  split; [reflexivity|].
  apply (proj1 (single_record_reads_absent Example.dbSqlQuery "42@chatroom")).
  reflexivity.
Defined.

(** * Further properties of the code *)

(** ** The interceptor, lines 32 to 49, and the registry, lines 119 to 129 *)

Section Preservation.

Variable wcf other : string -> list jsval -> Z -> outcome.
Variable entropy : nat -> Z.

(** A property of the agent that every passage through a limiter, every
    lookup in the registry and every assignment of [safe] keeps. *)
Variable P : agent -> Prop.

Hypothesis P_admission : forall g now this s this',
  admission_at g now this = Some (s, this') -> P this -> P this'.

Lemma invoke_preserves f : forall now this,
  P this -> P (snd (invoke wcf other f now this)).
Proof.
  induction f as [prop args | f IH | g f IH | repr]; intros now this HP;
    cbn [invoke]; try exact HP.
  - apply IH, HP.
  - destruct (admission_at g now this) as [[s this']|] eqn:Ha; [|exact HP].
    specialize (IH s this' (P_admission _ _ _ _ _ Ha HP)).
    destruct (invoke wcf other f s this') as [r this'']. exact IH.
Qed.

Lemma call_preserves prop args now this :
  P (snd (getThrottleForRecipient entropy (ToString (arg args 0)) this)) ->
  P this -> P (snd (call wcf other entropy prop args now this)).
Proof.
  intros Hget HP. unfold call. destruct (proxy_get this prop) as [p|p].
  - unfold intercepted.
    destruct (getThrottleForRecipient entropy (ToString (arg args 0)) this)
      as [w this1]. cbn [snd] in Hget.
    destruct (apply_wrapper w (Method p args)) as [e|f]; [exact Hget|].
    apply (invoke_preserves (Throttled Global (Thunk f)) now this1 Hget).
  - unfold immediate. destruct (is_function p); exact HP.
Qed.

End Preservation.

Section InterceptorProperties.

Variable wcf other : string -> list jsval -> Z -> outcome.
Variable entropy : nat -> Z.
Variable resolved : WechatferryAgentUserOptions -> bool.


(** The registry as a cache: two lookups of a recipient whose identifier
    names no member of Object.prototype give the same throttle, and the
    second changes nothing.  When the recipient was not known the first
    lookup stores a limiter that has started nothing, of capacity 1 and
    with the window that [randomInt(1000, 3000)] gives, and counts one
    draw; when it was known the first lookup changes nothing either. *)
Theorem registry_lookup_round_trip recipient this :
  inherited recipient = false ->
  let '(first, this1) := getThrottleForRecipient entropy recipient this in
  let '(second, this2) := getThrottleForRecipient entropy recipient this1 in
  first = OwnThrottle recipient /\ second = first /\ this2 = this1 /\
  match recipientThrottles this !! recipient with
  | Some l => this1 = this
  | None =>
      recipientThrottles this1 !! recipient =
        Some (pThrottle 1 (randomInt entropy 1000 3000 (randomInts this))) /\
      1000 <= randomInt entropy 1000 3000 (randomInts this) < 3000 /\
      randomInts this1 = S (randomInts this) /\
      forall k, k <> recipient ->
        recipientThrottles this1 !! k = recipientThrottles this !! k
  end.
Proof.
  intros Hin.
  destruct (recipientThrottles this !! recipient) as [l|] eqn:Hl.
  - rewrite (getThrottleForRecipient_again entropy recipient this l Hl).
    rewrite (getThrottleForRecipient_again entropy recipient this l Hl).
    auto.
  - destruct (getThrottleForRecipient_first entropy recipient this Hin Hl)
      as (interval & this1 & Hget & -> & Hrange & Hm & _ & _ & Hdraws).
    rewrite Hget.
    assert (Hl1 : recipientThrottles this1 !! recipient =
              Some (pThrottle 1 (randomInt entropy 1000 3000 (randomInts this)))).
    { rewrite Hm. apply lookup_insert_eq. }
    rewrite (getThrottleForRecipient_again entropy recipient this1 _ Hl1).
    repeat split; auto; try apply Hrange.
    intros k Hk. rewrite Hm. apply lookup_insert_ne. congruence.
Qed.

(** Nothing a client does removes a throttle from the registry or draws
    its window again: after any history, sends and assignments of [safe]
    alike, a throttle that was in the registry is still there with the
    capacity and the window it had. *)
Theorem throttles_never_evicted_or_redrawn h this id l :
  recipientThrottles this !! id = Some l ->
  exists l',
    recipientThrottles (snd (run wcf other entropy h this)) !! id = Some l' /\
    capacity l' = capacity l /\ windowDuration l' = windowDuration l.
Proof. intros Hl. exact (run_keeps wcf other entropy h this id l Hl). Qed.

Lemma admission_at_size g now this s this' :
  admission_at g now this = Some (s, this') ->
  randomInts this = size (recipientThrottles this) ->
  randomInts this' = size (recipientThrottles this').
Proof.
  unfold admission_at. destruct g as [|id].
  - destruct (admission now (throttleGlobal this)). intros [= <- <-]. auto.
  - destruct (recipientThrottles this !! id) as [l0|] eqn:Hid; [|discriminate].
    destruct (admission now l0). intros [= <- <-] Hsize. simpl.
    rewrite map_size_insert_Some; [exact Hsize | eauto].
Qed.

Lemma getThrottleForRecipient_size recipient this :
  randomInts this = size (recipientThrottles this) ->
  randomInts (snd (getThrottleForRecipient entropy recipient this)) =
    size (recipientThrottles (snd (getThrottleForRecipient entropy recipient this))).
Proof.
  intros Hsize. unfold getThrottleForRecipient.
  destruct (get_member (recipientThrottles this) recipient) eqn:Hm;
    [exact Hsize|].
  apply inherited_not_own_key in Hm as [Hnone _]. simpl.
  rewrite map_size_insert_None by exact Hnone. congruence.
Qed.

(** One window is drawn for each throttle and none besides: after any
    history of an agent, the number of calls of [randomInt] is the number
    of throttles in the registry. *)
Theorem one_draw_per_throttle options h :
  let this := snd (run wcf other entropy h (new resolved options)) in
  randomInts this = size (recipientThrottles this).
Proof.
  cbv zeta.
  assert (Hrun : forall l this,
            randomInts this = size (recipientThrottles this) ->
            randomInts (snd (run wcf other entropy l this)) =
              size (recipientThrottles (snd (run wcf other entropy l this)))).
  { induction l as [|a l IH]; intros this Hsize; [exact Hsize|].
    cbn [run].
    assert (Hstep :
      randomInts (snd (step wcf other entropy this a)) =
        size (recipientThrottles (snd (step wcf other entropy this a)))).
    { destruct a as [now prop args | b]; cbn [step]; [|exact Hsize].
      pose proof (call_preserves wcf other entropy
                    (fun a => randomInts a = size (recipientThrottles a))
                    admission_at_size prop args now this
                    (getThrottleForRecipient_size _ this Hsize) Hsize) as H.
      destruct (call wcf other entropy prop args now this). exact H. }
    destruct (step wcf other entropy this a) as [rs1 this1].
    specialize (IH this1 Hstep).
    destruct (run wcf other entropy l this1). exact IH. }
  apply Hrun. simpl. rewrite map_size_empty. reflexivity.
Qed.

End InterceptorProperties.

Section RegistryKeys.

Variable wcf other : string -> list jsval -> Z -> outcome.
Variable entropy : nat -> Z.
Variable resolved : WechatferryAgentUserOptions -> bool.






(** The first send to a recipient is not held back by its throttle: in
    safe mode, a send to a recipient that has no throttle yet starts at the
    instant at which the global limiter lets it through. *)
Theorem first_send_waits_for_global_limiter_only target prop args now :
  safe target = true -> is_function prop = true ->
  startsWith prop "send" = true ->
  inherited (ToString (arg args 0)) = false ->
  recipientThrottles target !! ToString (arg args 0) = None ->
  60000 <= now ->
  started (fst (call wcf other entropy prop args now target)) =
    Some (fst (admission now (throttleGlobal target))).
Proof.
  intros Hsafe Hfun Hsend Hin Hnone Hnow.
  unfold call. rewrite (proxy_get_send target prop Hsafe Hfun Hsend).
  destruct (intercepted_own wcf other entropy prop args now target Hin)
    as (target1 & l & Hget & Hl & Heq).
  cbv zeta in Heq. rewrite Heq. cbn [fst started].
  destruct (getThrottleForRecipient_first entropy _ target Hin Hnone)
    as (interval & this' & Hget' & _ & Hrange & Hm & _).
  rewrite Hget' in Hget. injection Hget as <-.
  rewrite Hm, lookup_insert_eq in Hl. injection Hl as <-.
  pose proof (admission_not_early now (throttleGlobal target)) as Hg.
  set (g := fst (admission now (throttleGlobal target))) in *.
  pose proof (admission_cases g (pThrottle 1 interval)) as H.
  destruct (admission g (pThrottle 1 interval)) as [s l']. cbn [fst].
  simpl in H. f_equal. intuition lia.
Qed.

End RegistryKeys.

(** ** The reads of the stores, lines 233 to 512 *)

Lemma append_cons c (s t : string) :
  (String c s ++ t)%string = String c (s ++ t)%string.
Proof. reflexivity. Qed.

Lemma append_empty_r (s : string) : (s ++ "")%string = s.
Proof.
  induction s as [|c s IH]; [reflexivity|].
  rewrite append_cons, IH. reflexivity.
Qed.

Lemma append_assoc' (s1 s2 s3 : string) :
  ((s1 ++ s2) ++ s3)%string = (s1 ++ (s2 ++ s3))%string.
Proof.
  induction s1 as [|c s1 IH]; [reflexivity|].
  rewrite !append_cons, IH. reflexivity.
Qed.


(** A piece without a comma is read up to the comma that follows it. *)
Lemma split_from_piece x : forall cur rest,
  no_comma x ->
  split_from "," (x ++ rest) 0 cur = split_from "," rest 0 (cur ++ x).
Proof.
  induction x as [|c x IH]; intros cur rest Hx.
  - rewrite append_empty_r. reflexivity.
  - destruct Hx as [Hc Hx]. rewrite append_cons.
    cbn [split_from String.prefix].
    destruct (ascii_dec "," c) as [Heq|_]; [congruence|].
    rewrite (IH _ _ Hx), append_assoc'. reflexivity.
Qed.

Lemma split_concat_commas l :
  Forall (fun x => no_comma x /\ x <> ""%string) l ->
  List.filter truthy (split (String.concat "," l) ",") = l.
Proof.
  unfold split. induction 1 as [|x l [Hx Hne] Hl IH]; [reflexivity|].
  assert (Htruthy : truthy x = true) by (destruct x; [congruence | reflexivity]).
  destruct l as [|y l].
  - cbn [String.concat]. rewrite <- (append_empty_r x) at 1.
    rewrite (split_from_piece x "" "" Hx). cbn [split_from List.filter].
    change ("" ++ x)%string with x. rewrite Htruthy. reflexivity.
  - change (String.concat "," (x :: y :: l))
      with (x ++ String "," (String.concat "," (y :: l)))%string.
    rewrite (split_from_piece x "" _ Hx).
    cbn [split_from String.prefix]. destruct (ascii_dec "," ","); [|congruence].
    assert (Hprefix : forall t, String.prefix "" t = true)
      by (intros [|? ?]; reflexivity).
    rewrite Hprefix. cbn [String.length Nat.sub List.filter].
    change ("" ++ x)%string with x. rewrite Htruthy, IH. reflexivity.
Qed.

Lemma fill_displayNameMap_other ids : forall index names o k,
  ~ In k ids ->
  fill_displayNameMap ids index names o !! k = o !! k.
Proof.
  induction ids as [|id ids IH]; intros index names o k Hk; [reflexivity|].
  cbn [fill_displayNameMap]. rewrite IH by (simpl in Hk; tauto).
  unfold set_property. destruct (String.eqb id "__proto__"); [reflexivity|].
  apply lookup_insert_ne. simpl in Hk. tauto.
Qed.

Lemma fill_displayNameMap_at ids : forall index names o i k,
  NoDup ids -> ids !! i = Some k -> k <> "__proto__" ->
  fill_displayNameMap ids index names o !! k =
    Some (names !! (index + i)%nat).
Proof.
  induction ids as [|id ids IH]; intros index names o i k Hnodup Hi Hk;
    [discriminate|].
  apply NoDup_cons in Hnodup as [Hnotin Hnodup].
  cbn [fill_displayNameMap]. destruct i as [|i]; simpl in Hi.
  - injection Hi as ->.
    rewrite fill_displayNameMap_other
      by (intros Hin; apply Hnotin, list_elem_of_In, Hin).
    unfold set_property.
    destruct (String.eqb_spec k "__proto__"); [contradiction|].
    rewrite lookup_insert_eq, Nat.add_0_r. reflexivity.
  - rewrite (IH (S index) names _ i k Hnodup Hi Hk).
    do 2 f_equal. lia.
Qed.

Lemma fill_displayNameMap_proto ids : forall index names o,
  fill_displayNameMap ids index names o !! "__proto__" = o !! "__proto__".
Proof.
  induction ids as [|id ids IH]; intros index names o; [reflexivity|].
  cbn [fill_displayNameMap]. rewrite IH. unfold set_property.
  destruct (String.eqb_spec id "__proto__") as [->|Hne]; [reflexivity|].
  apply lookup_insert_ne. exact Hne.
Qed.

Section ReadProperties.

Variable dbSqlQuery : forall T, store -> sql T -> list T.
Variable getSelfWxid : string.
Variable read_property : Decoders.bytes -> option (Decoders.property * Decoders.bytes).
Variable sender_type : Z.


Lemma displayNameMap_of_room userName info :
  getChatRoomInfo dbSqlQuery userName = Some info ->
  NoDup (memberIdList info) ->
  (forall i id,
     memberIdList info !! i = Some id -> id <> "__proto__" ->
     displayNameMap info !! id = Some (info_DisplayNameList info !! i)) /\
  displayNameMap info !! "__proto__" = None /\
  (forall id, ~ In id (memberIdList info) -> displayNameMap info !! id = None).
Proof.
  unfold getChatRoomInfo.
  destruct (dbSqlQuery _ MicroMsg (SelectChatRoomInfo userName))
    as [|data rest]; [discriminate|].
  intros [= <-]. cbn [memberIdList displayNameMap info_DisplayNameList].
  intros Hnodup. split; [|split].
  - intros i id Hi Hid.
    rewrite (fill_displayNameMap_at _ 0 _ ∅ i id Hnodup Hi Hid).
    reflexivity.
  - rewrite fill_displayNameMap_proto. apply lookup_empty.
  - intros id Hid. rewrite fill_displayNameMap_other by exact Hid.
    apply lookup_empty.
Qed.

(** In the room that getChatRoomInfo returns, displayNameMap gives the
    member at position i the display name at position i, or undefined when
    the list of display names is shorter; this for members that occur once
    in the list and are not named __proto__.  The map has no entry for
    __proto__ and none for an identifier that is not a member. *)
Theorem display_names_by_position userName info :
  getChatRoomInfo dbSqlQuery userName = Some info ->
  NoDup (memberIdList info) ->
  (forall i id,
     memberIdList info !! i = Some id -> id <> "__proto__" ->
     displayNameMap info !! id = Some (info_DisplayNameList info !! i)) /\
  displayNameMap info !! "__proto__" = None /\
  (forall id, ~ In id (memberIdList info) -> displayNameMap info !! id = None).
Proof. exact (displayNameMap_of_room userName info). Qed.


(** The tags of a contact: when LabelIDList is the labels of [labels]
    joined by commas, each label non-empty and without a comma,
    getContactInfo returns exactly those labels as tags, in order; a
    LabelIDList that is null gives no tags. *)
Theorem contact_tags_round_trip userName data rest labels :
  dbSqlQuery _ MicroMsg (SelectContactInfo userName) = data :: rest ->
  Forall (fun x => no_comma x /\ x <> ""%string) labels ->
  (LabelIDList data = Some (String.concat "," labels) ->
   getContactInfo dbSqlQuery userName =
     Some {| contact_row := data; tags := labels |}) /\
  (LabelIDList data = None ->
   getContactInfo dbSqlQuery userName =
     Some {| contact_row := data; tags := [] |}).
Proof.
  intros Hrows Hlabels. unfold getContactInfo. rewrite Hrows.
  split; intros ->; [|reflexivity].
  rewrite (split_concat_commas labels Hlabels). reflexivity.
Qed.

(** A contact looks the same in the list and in the single read: the row
    at position i of getContactList carries what getContactInfo returns for
    a user whose query gives that row first. *)
Theorem contact_list_agrees_with_contact_info userName i data rest :
  dbSqlQuery _ MicroMsg SelectContactList !! i = Some data ->
  dbSqlQuery _ MicroMsg (SelectContactInfo userName) = data :: rest ->
  getContactList dbSqlQuery !! i = getContactInfo dbSqlQuery userName /\
  length (getContactList dbSqlQuery) =
    length (dbSqlQuery _ MicroMsg SelectContactList).
Proof.
  intros Hi Hrows. unfold getContactList, getContactInfo.
  rewrite lookup_map, Hi, Hrows. split; [reflexivity | apply length_map].
Qed.

(** getHistoryMessageList never returns an empty sender: when the own
    account identifier is not empty, the talkerWxid of every returned row
    is not empty, whatever the sender-extra buffers hold. *)
Theorem talker_never_empty userName filter :
  getSelfWxid <> ""%string ->
  Forall (fun m => talkerWxid m <> ""%string)
    (getHistoryMessageList dbSqlQuery getSelfWxid read_property sender_type
       userName filter).
Proof.
  intros Hself. unfold getHistoryMessageList.
  apply List.Forall_map, List.Forall_forall. intros m _. cbn [talkerWxid].
  destruct (Decoders.getWxidFromBytesExtra sender_type
              (Decoders.decodeBytesExtra read_property (BytesExtra m)))
    as [s|]; [|exact Hself].
  destruct s as [|c s]; [exact Hself | discriminate].
Qed.

End ReadProperties.

(** ** The life cycle, lines 53 to 117 *)

Section LifecycleProperties.

Import Lifecycle.

Variable isLogin : nat -> option bool.
Variable getUserInfo : nat -> outcome.
Variable wcf_start : nat -> option error.
Variable wcf_stop : nat -> option error.

Lemma stopTimer_polling st : polling st -> stopTimer st = st.
Proof.
  intros (Ht & _). unfold stopTimer. rewrite Ht. destruct st. simpl in *.
  subst. reflexivity.
Qed.

Lemma checkLogin_polling st :
  polling st ->
  polling (snd (checkLogin isLogin getUserInfo st)) /\
  created (snd (checkLogin isLogin getUserInfo st)) = created st.
Proof.
  intros Hst. unfold checkLogin, isLoggedIn.
  destruct (match isLogin (calls st) with Some b => b | None => false end);
    [|split; [exact Hst | reflexivity]].
  destruct (getUserInfo (calls (called st)));
    [|split; [exact Hst | reflexivity]].
  cbn [snd].
  assert (Hp : polling (emit (Login v) (called (called st)))) by exact Hst.
  rewrite (stopTimer_polling _ Hp). split; [exact Hp | reflexivity].
Qed.

Lemma startTimer_polling st :
  polling st ->
  polling (snd (startTimer isLogin getUserInfo st)) /\
  (fst (startTimer isLogin getUserInfo st) = None ->
   created (snd (startTimer isLogin getUserInfo st)) = S (created st)) /\
  (created st <= created (snd (startTimer isLogin getUserInfo st)))%nat.
Proof.
  intros Hst. unfold startTimer. rewrite (stopTimer_polling st Hst).
  destruct (checkLogin_polling st Hst) as [Hp Hc].
  destruct (checkLogin isLogin getUserInfo st) as [[e|] st1]; cbn [fst snd] in *.
  - split; [exact Hp|]. split; [discriminate | lia].
  - destruct Hp as (Ht & Hi & Hh).
    split; [|split; [intros _; simpl; lia | simpl; lia]].
    unfold polling. cbn [timer intervals created handlers forwarders].
    rewrite Hi, seq_S. simpl. repeat split; auto.
Qed.

Lemma poll_polling st :
  polling st ->
  polling (snd (poll isLogin getUserInfo st)) /\
  created (snd (poll isLogin getUserInfo st)) = created st.
Proof.
  intros Hst. unfold poll, isLoggedIn.
  assert (Hp : polling (called st)) by exact Hst.
  destruct (match isLogin (calls st) with Some b => b | None => false end).
  - cbn [snd]. rewrite (stopTimer_polling _ Hp). split; [exact Hp | reflexivity].
  - apply (checkLogin_polling _ Hp).
Qed.

Lemma start_polling st :
  polling st ->
  polling (snd (start isLogin getUserInfo wcf_start st)) /\
  (fst (start isLogin getUserInfo wcf_start st) = None ->
   created (snd (start isLogin getUserInfo wcf_start st)) = S (created st)) /\
  (created st <= created (snd (start isLogin getUserInfo wcf_start st)))%nat.
Proof.
  intros Hst. unfold start.
  destruct (wcf_start (calls st));
    [split; [exact Hst | split; [discriminate | simpl; lia]]|].
  assert (Hp : polling (called st)) by exact Hst.
  destruct (startTimer_polling _ Hp) as (Hp1 & Hc1 & Hle1).
  destruct (startTimer isLogin getUserInfo (called st)) as [[e|] st1];
    cbn [fst snd] in *.
  - split; [exact Hp1 | split; [discriminate | exact Hle1]].
  - split; [|split; [intros _; apply Hc1; reflexivity | exact Hle1]].
    destruct Hp1 as (Ht & Hi & Hh).
    specialize (Hc1 eq_refl). simpl in Hc1.
    unfold polling, catchErrors.
    cbn [timer intervals created handlers forwarders].
    repeat split; auto; lia.
Qed.

Lemma stop_polling err st :
  polling st ->
  polling (snd (stop isLogin wcf_stop err st)) /\
  created (snd (stop isLogin wcf_stop err st)) = created st.
Proof.
  intros Hst. unfold stop. rewrite (stopTimer_polling st Hst).
  unfold isLoggedIn.
  destruct (match isLogin (calls st) with Some b => b | None => false end);
    match goal with
    | |- context [wcf_stop ?k] => destruct (wcf_stop k)
    end;
    cbn [snd]; try (split; [exact Hst | reflexivity]);
    destruct (reason_truthy err); split; solve [exact Hst | reflexivity].
Qed.

Lemma run_polling acts : forall st,
  polling st ->
  polling (run isLogin getUserInfo wcf_start wcf_stop acts st) /\
  (created st <=
   created (run isLogin getUserInfo wcf_start wcf_stop acts st))%nat.
Proof.
  unfold run. induction acts as [|a acts IH]; intros st Hst;
    [split; [exact Hst | simpl; lia]|].
  cbn [fold_left].
  assert (Hstep :
    polling (step isLogin getUserInfo wcf_start wcf_stop st a) /\
    (created st <=
     created (step isLogin getUserInfo wcf_start wcf_stop st a))%nat).
  { destruct a as [|err|]; cbn [step].
    - destruct (start_polling st Hst) as (Hp & _ & Hle). auto.
    - destruct (stop_polling err st Hst) as [Hp Hc]. split; [exact Hp | lia].
    - destruct (intervals st); [split; [exact Hst | lia]|].
      destruct (poll_polling st Hst) as [Hp Hc]. split; [exact Hp | lia]. }
  destruct Hstep as [Hp Hle].
  destruct (IH _ Hp) as [Hp' Hle']. split; [exact Hp' | lia].
Qed.

(** The poll is never cancelled.  Whatever calls of [start] and [stop] and
    firings of the intervals an agent has seen: the field [timer] is null,
    every interval that [startTimer] made is still live, and the process
    has three handlers for each listener that [start] put on the
    transport.  A call of [start] that completes makes one more interval,
    and a call of [stop] clears none. *)
Theorem poll_is_never_cancelled acts :
  let st := run isLogin getUserInfo wcf_start wcf_stop acts init in
  timer st = None /\
  intervals st = seq 0 (created st) /\
  handlers st = (3 * forwarders st)%nat /\
  (fst (start isLogin getUserInfo wcf_start st) = None ->
   intervals (snd (start isLogin getUserInfo wcf_start st)) =
     app (intervals st) [created st]) /\
  (forall err, intervals (snd (stop isLogin wcf_stop err st)) = intervals st).
Proof.
  intros st.
  assert (Hinit : polling init).
  { unfold polling. simpl. repeat split; auto. }
  destruct (run_polling acts init Hinit) as [Hst _]. fold st in Hst.
  pose proof Hst as (Ht & Hi & Hh).
  split; [exact Ht|]. split; [exact Hi|]. split; [exact Hh|]. split.
  - intros Hdone.
    destruct (start_polling st Hst) as ((_ & Hi' & _) & Hc & _).
    rewrite Hi', (Hc Hdone), seq_S, Hi. reflexivity.
  - intros err. destruct (stop_polling err st Hst) as ((_ & Hi' & _) & Hc).
    rewrite Hi', Hc, Hi. reflexivity.
Qed.



End LifecycleProperties.

(** ** Instances *)


Lemma registry_lookup_round_trip_witness :
  inherited "wxid_alice" = false /\
  let '(first, this1) :=
    getThrottleForRecipient Example.entropy "wxid_alice" Example.safe_agent in
  let '(second, this2) :=
    getThrottleForRecipient Example.entropy "wxid_alice" this1 in
  first = OwnThrottle "wxid_alice" /\ second = first /\ this2 = this1.
Proof.
  split; [reflexivity|].
  pose proof (registry_lookup_round_trip Example.entropy "wxid_alice"
                Example.safe_agent eq_refl) as H.
  destruct (getThrottleForRecipient Example.entropy "wxid_alice"
              Example.safe_agent) as [first this1].
  destruct (getThrottleForRecipient Example.entropy "wxid_alice" this1)
    as [second this2].
  destruct H as (H1 & H2 & H3 & _). auto.
Defined.

Lemma throttles_never_evicted_or_redrawn_witness :
  let this := snd (Example.run [Example.sendText "wxid_alice" Example.t0]) in
  let h := [Example.sendText "wxid_bob" Example.t0; SetSafe false;
            Example.sendText "wxid_alice" Example.t0] in
  recipientThrottles this !! "wxid_alice" =
    Some {| capacity := 1; windowDuration := 2000;
            windowStart := Example.t0; usedInWindow := 1 |} /\
  exists l',
    recipientThrottles
      (snd (run Example.wcf Example.other Example.entropy h this))
      !! "wxid_alice" = Some l' /\
    capacity l' = 1 /\ windowDuration l' = 2000.
Proof.
  intros this h.
  assert (Hl : recipientThrottles this !! "wxid_alice" =
            Some {| capacity := 1; windowDuration := 2000;
                    windowStart := Example.t0; usedInWindow := 1 |})
    by (vm_compute; reflexivity).
  split; [exact Hl|].
  exact (throttles_never_evicted_or_redrawn Example.wcf Example.other
           Example.entropy h this "wxid_alice" _ Hl).
Defined.



Lemma first_send_waits_for_global_limiter_only_witness :
  safe Example.safe_agent = true /\
  recipientThrottles Example.safe_agent !! "wxid_alice" = None /\
  60000 <= Example.t0 /\
  started (fst (call Example.wcf Example.other Example.entropy "sendText"
                  [JString "wxid_alice"; JString "hello"] Example.t0
                  Example.safe_agent)) =
    Some (fst (admission Example.t0 (throttleGlobal Example.safe_agent))).
Proof.
  split; [reflexivity|]. split; [reflexivity|].
  assert (Hclock : 60000 <= Example.t0) by (unfold Example.t0; lia).
  split; [exact Hclock|].
  apply (first_send_waits_for_global_limiter_only Example.wcf Example.other
           Example.entropy Example.safe_agent "sendText"
           [JString "wxid_alice"; JString "hello"] Example.t0);
    solve [reflexivity | exact Hclock].
Defined.

Lemma recipient_sends_spaced_witness :
  let h := [Example.sendText "wxid_alice" Example.t0;
            Example.sendText "wxid_bob" Example.t0;
            Example.sendText "wxid_alice" (Example.t0 + 1)] in
  inherited "wxid_alice" = false /\ Forall clock_ok h /\
  match recipientThrottles
          (snd (run Example.wcf Example.other Example.entropy h
                  (new Example.resolved {| opt_safe := Some true |})))
          !! "wxid_alice" with
  | Some l' =>
      1000 <= windowDuration l' < 3000 /\ capacity l' = 1 /\
      spaced (windowDuration l') None
        (passes (Recipient "wxid_alice")
           (fst (run Example.wcf Example.other Example.entropy h
                   (new Example.resolved {| opt_safe := Some true |}))))
  | None =>
      passes (Recipient "wxid_alice")
        (fst (run Example.wcf Example.other Example.entropy h
                (new Example.resolved {| opt_safe := Some true |}))) = []
  end.
Proof.
  intros h.
  assert (Hclock : Forall clock_ok h).
  { repeat (apply List.Forall_cons; [simpl; unfold Example.t0; lia|]).
    apply List.Forall_nil. }
  split; [reflexivity|]. split; [exact Hclock|].
  exact (recipient_sends_spaced Example.wcf Example.other Example.entropy
           "wxid_alice" Example.resolved {| opt_safe := Some true |} h
           eq_refl Hclock).
Defined.

Lemma send_result_is_transport_result_witness :
  assoc "sendText" api =
    Some (fun a => ("sendTxt",
                    [arg a 1; arg a 0;
                     match arg a 2 with JUndefined => JArray [] | v => v end])) /\
  exists s,
    Example.t0 <= s /\
    started (fst (call Example.wcf Example.other Example.entropy "sendText"
                    [JString "wxid_alice"; JString "hello"] Example.t0
                    Example.safe_agent)) = Some s /\
    result (fst (call Example.wcf Example.other Example.entropy "sendText"
                   [JString "wxid_alice"; JString "hello"] Example.t0
                   Example.safe_agent)) =
      Example.wcf "sendTxt"
        [JString "hello"; JString "wxid_alice"; JArray []] s.
Proof.
  split; [reflexivity|].
  exact (send_result_is_transport_result Example.wcf Example.other
           Example.entropy Example.safe_agent "sendText"
           [JString "wxid_alice"; JString "hello"] Example.t0 _
           eq_refl eq_refl eq_refl eq_refl eq_refl).
Defined.


Lemma display_names_by_position_witness :
  exists info,
    getChatRoomInfo Example2.dbSqlQuery "42@chatroom" = Some info /\
    NoDup (memberIdList info) /\
    displayNameMap info !! "wxid_b" = Some (Some "Bob").
Proof.
  eexists. split; [reflexivity|].
  assert (Hnodup : NoDup ["wxid_a"; "wxid_b"]).
  { apply NoDup_cons_2; [|apply NoDup_singleton].
    intros H. apply list_elem_of_singleton in H. discriminate. }
  split; [exact Hnodup|].
  exact (proj1 (display_names_by_position Example2.dbSqlQuery "42@chatroom"
                  _ eq_refl Hnodup) 1%nat "wxid_b" eq_refl
           ltac:(discriminate)).
Defined.


Lemma contact_tags_round_trip_witness :
  Forall (fun x => no_comma x /\ x <> ""%string) ["1"; "2"] /\
  getContactInfo Example2.dbSqlQuery "wxid_a" =
    Some {| contact_row :=
              {| contact_columns := ∅; UserName := "wxid_a";
                 LabelIDList := Some "1,2" |};
            tags := ["1"; "2"] |}.
Proof.
  assert (Hlabels : Forall (fun x => no_comma x /\ x <> ""%string) ["1"; "2"]).
  { repeat (apply List.Forall_cons;
              [split; [simpl; split; [discriminate | exact I] | discriminate]|]).
    apply List.Forall_nil. }
  split; [exact Hlabels|].
  exact (proj1 (contact_tags_round_trip Example2.dbSqlQuery "wxid_a" _ []
                  ["1"; "2"] eq_refl Hlabels) eq_refl).
Defined.

Lemma contact_list_agrees_with_contact_info_witness :
  getContactList Example2.dbSqlQuery !! 0%nat =
    getContactInfo Example2.dbSqlQuery "wxid_a".
Proof.
  exact (proj1 (contact_list_agrees_with_contact_info Example2.dbSqlQuery
                  "wxid_a" 0%nat _ [] eq_refl eq_refl)).
Defined.

Lemma talker_never_empty_witness :
  "wxid_self" <> ""%string /\
  Forall (fun m => talkerWxid m <> ""%string)
    (getHistoryMessageList Example.dbSqlQuery "wxid_self"
       Decoders.tlv_property Example.sender_type "wxid_alice" None).
Proof.
  assert (Hself : "wxid_self" <> ""%string) by discriminate.
  split; [exact Hself|].
  exact (talker_never_empty Example.dbSqlQuery "wxid_self"
           Decoders.tlv_property Example.sender_type "wxid_alice" None Hself).
Defined.

Lemma poll_is_never_cancelled_witness :
  let st :=
    Lifecycle.run Example2.isLogin Example2.getUserInfo Example2.wcf_start
      Example2.wcf_stop
      [Lifecycle.Start; Lifecycle.Fire; Lifecycle.Stop Lifecycle.NoReason]
      Lifecycle.init in
  fst (Lifecycle.start Example2.isLogin Example2.getUserInfo
         Example2.wcf_start st) = None /\
  Lifecycle.intervals st = [0%nat] /\
  Lifecycle.intervals
    (snd (Lifecycle.start Example2.isLogin Example2.getUserInfo
            Example2.wcf_start st)) = [0%nat; 1%nat].
Proof.
  intros st. split; [reflexivity|]. split; [reflexivity|].
  destruct (poll_is_never_cancelled Example2.isLogin Example2.getUserInfo
              Example2.wcf_start Example2.wcf_stop
              [Lifecycle.Start; Lifecycle.Fire;
               Lifecycle.Stop Lifecycle.NoReason])
    as (_ & _ & _ & Hstart & _).
  exact (Hstart eq_refl).
Defined.


